(** * Controller bootstrap of argo-events: [controllers/cmd/start.go]

    A shallow embedding of [lookupEnvDurationOr] and [Start].  The Go code
    is a straight line of calls into collaborators (the configuration
    loader, controller-runtime, the process environment) whose failures
    end the process through the logger's fatal level.  The embedding is a
    small monad [Proc]: a computation reads an immutable [World] (what the
    environment and the collaborators answer), appends to a trace of
    [Event]s (what the process did, in order) and either returns, exits
    with a code, or panics.

    Left out: the name given to the logger, the fields attached to log
    entries, and the reload callback handed to [LoadConfig], which runs
    only after the bootstrap.  What controller-runtime does with the
    options, predicates and handlers it is given is not in this
    repository; the part of it the specification speaks about is modelled
    separately, after the code. *)

From stdpp Require Import base option list strings gmap pretty.
From Stdlib Require Import ZArith Lia Ascii.

Local Open Scope Z_scope.
Local Open Scope string_scope.
Local Open Scope list_scope.

(** ** Data *)

(** [time.Duration]: a count of nanoseconds. *)
Definition Duration := Z.
Definition Nanosecond : Duration := 1.
Definition Second : Duration := 1000000000 * Nanosecond.

(** A Go [error], kept as its message. *)
Definition Error := string.

Definition imageEnvVar : string := "ARGO_EVENTS_IMAGE".

Record ArgoEventsControllerOpts := {
  Namespaced : bool;
  ManagedNamespace : string;
  LeaderElection : bool;
  MetricsPort : Z;
  HealthPort : Z
}.

(** The three controller packages; each exports a [ControllerName] and a
    [NewReconciler]. *)
Inductive Package := eventbus | eventsource | sensor.

(** The three API packages whose [AddToScheme] is called. *)
Inductive SchemeGroup := eventbusv1alpha1 | eventsourcev1alpha1 | sensorv1alpha1.

(** The object types handed to [source.Kind] and [EnqueueRequestForOwner]. *)
Inductive Kind :=
| EventBus | EventSource | Sensor
| ConfigMap | StatefulSet | Deployment | Service.

(** [cache.Config]: the per-namespace cache configuration; [Start] only
    ever writes the zero value [{}]. *)
Record cache_Config := { cache_Config_zero : unit }.
Definition cache_Config_empty : cache_Config := {| cache_Config_zero := tt |}.

(** The fields of [ctrl.Options] that [Start] assigns.  A nil map is the
    empty map, a nil [*time.Duration] is [None]. *)
Record Options := {
  Metrics_BindAddress : string;
  HealthProbeBindAddress : string;
  Cache_DefaultNamespaces : gmap string cache_Config;
  opt_LeaderElection : bool;
  LeaderElectionID : string;
  LeaseDuration : option Duration;
  RenewDeadline : option Duration;
  RetryPeriod : option Duration
}.

(** [predicate.*] values, as the source builds them. *)
#[warnings="-register-all"] Inductive Predicate :=
| GenerationChangedPredicate
| LabelChangedPredicate
| predicate_Or (ps : list Predicate).

Inductive OwnerOption := OnlyControllerOwner.

(** [handler.*] values, as the source builds them. *)
Inductive EventHandler :=
| EnqueueRequestForObject
| EnqueueRequestForOwner (ownerType : Kind) (opts : list OwnerOption).

(** [mgr.GetCache()]: the manager's cache, which carries the cache options
    the manager was built with. *)
Record Cache := { cache_namespaces : gmap string cache_Config }.

(** [source.Kind(cache, object)]. *)
Record Source := { src_cache : Cache; src_kind : Kind }.

Inductive Level := InfoLevel | ErrorLevel | FatalLevel.

#[export] Instance Kind_eq_dec : EqDecision Kind.
Proof. solve_decision. Defined.
#[export] Instance Package_eq_dec : EqDecision Package.
Proof. solve_decision. Defined.
#[export] Instance OwnerOption_eq_dec : EqDecision OwnerOption.
Proof. solve_decision. Defined.

(** How a computation ends: it returns, the process exits with a status
    code ([os.Exit]), or it panics. *)
Inductive Outcome (A : Type) :=
| Returned (a : A)
| Exited (code : Z)
| Panicked (e : Error).
Arguments Returned {A} a.
Arguments Exited {A} code.
Arguments Panicked {A} e.

Section Bootstrap.

(** [controllers.GlobalConfig] is declared outside this file; [Start] only
    passes it along. *)
Context {Config : Type}.

(** Arguments of the [NewReconciler] calls. *)
Inductive Arg :=
| mgr_GetClient
| kubeClient
| mgr_GetScheme
| arg_config (c : Config)
| arg_imageName (s : string)
| arg_logger.

(** The calls into collaborators that may fail. *)
Inductive Call :=
| controllers_LoadConfig
| controllers_ValidateConfig (c : Config)
| ctrl_GetConfigOrDie
| ctrl_NewManager (opts : Options)
| kubernetes_NewForConfigOrDie
| mgr_AddReadyzCheck (name : string)
| mgr_AddHealthzCheck (name : string)
| AddToScheme (g : SchemeGroup)
| controller_New (name : Package) (reconciler : Package * list Arg)
| Watch (c : Package) (src : Source) (h : EventHandler) (p : Predicate)
| mgr_Start.

Inductive Event :=
| EvLookupEnv (key : string)
| EvLog (l : Level) (msg : string)
| EvCall (c : Call).

(** What the outside answers: the process environment, [time.ParseDuration]
    (Go's standard library), the configuration [LoadConfig] produces, and
    for each fallible call the error it returns, if any. *)
Record World := {
  environ : gmap string string;
  parse_duration : string -> option Duration;
  loaded_config : Config;
  call_error : Call -> option Error
}.

(** ** The process monad *)

Definition Proc (A : Type) : Type := World -> list Event -> Outcome A * list Event.

#[export] Instance Proc_ret : MRet Proc := fun A a _ tr => (Returned a, tr).

#[export] Instance Proc_bind : MBind Proc := fun A B k m w tr =>
  match m w tr with
  | (Returned a, tr') => k a w tr'
  | (Exited c, tr') => (Exited c, tr')
  | (Panicked e, tr') => (Panicked e, tr')
  end.

Definition emit (e : Event) : Proc unit := fun _ tr => (Returned tt, tr ++ [e]).
Definition os_Exit (code : Z) : Proc unit := fun _ tr => (Exited code, tr).
Definition panic (e : Error) : Proc unit := fun _ tr => (Panicked e, tr).

(** [if cond { body }] *)
Definition when (cond : bool) (body : Proc unit) : Proc unit :=
  if cond then body else mret tt.

(** A call into a collaborator: recorded, and answered by the world. *)
Definition call (c : Call) : Proc (option Error) := fun w tr =>
  (Returned (call_error w c), tr ++ [EvCall c]).

(** [controllers.LoadConfig]: the configuration and the error. *)
Definition LoadConfig : Proc (Config * option Error) := fun w tr =>
  (Returned (loaded_config w, call_error w controllers_LoadConfig),
   tr ++ [EvCall controllers_LoadConfig]).

(** [os.LookupEnv] *)
Definition os_LookupEnv (key : string) : Proc (string * bool) := fun w tr =>
  (Returned (match environ w !! key with
             | Some v => (v, true)
             | None => ("", false)
             end),
   tr ++ [EvLookupEnv key]).

(** [time.ParseDuration]: [None] stands for a non-nil error. *)
Definition time_ParseDuration (v : string) : Proc (option Duration) := fun w tr =>
  (Returned (parse_duration w v), tr).

(** The zap logger.  The fatal level writes the entry and then calls
    [os.Exit(1)]. *)
Definition Infow (msg : string) : Proc unit := emit (EvLog InfoLevel msg).
Definition Errorw (msg : string) : Proc unit := emit (EvLog ErrorLevel msg).
Definition Fatalw (msg : string) : Proc unit := emit (EvLog FatalLevel msg);; os_Exit 1.
Definition Fatalf (msg : string) : Proc unit := emit (EvLog FatalLevel msg);; os_Exit 1.

Definition is_err (e : option Error) : bool :=
  match e with Some _ => true | None => false end.

(** ** [lookupEnvDurationOr] (start.go, lines 45-57) *)

Definition lookupEnvDurationOr (key : string) (o : Duration) : Proc Duration :=
  '(v, found) ← os_LookupEnv key;
  if found && negb (String.eqb v "") then
    d ← time_ParseDuration v;
    match d with
    | None => Fatalw "parsing %s duration";; mret o
    | Some d => mret d
    end
  else mret o.

(** ** [Start] (start.go, lines 59-222)

    The body is cut at its blank lines into named pieces; [Start] is their
    sequence. *)

(** Lines 61-70.  The callback handed to [LoadConfig] only runs on a later
    reload of the file and is not part of the bootstrap. *)
Definition loadGlobalConfig : Proc Config :=
  '(config, err) ← LoadConfig;
  when (is_err err) (Fatalw "Failed to load global configuration file");;
  err ← call (controllers_ValidateConfig config);
  when (is_err err) (Fatalw "Global configuration file validation failed");;
  mret config.

(** Lines 72-75. *)
Definition lookupImageName : Proc string :=
  '(imageName, defined) ← os_LookupEnv imageEnvVar;
  when (negb defined)
    (Fatalf ("required environment variable '" +:+ imageEnvVar +:+ "' not defined"));;
  mret imageName.

(** [fmt.Sprintf(":%d", port)] *)
Definition bindAddress (port : Z) : string := ":" +:+ pretty port.

(** Lines 76-95. *)
Definition managerOptions (eventsOpts : ArgoEventsControllerOpts) : Proc Options :=
  let opts := {|
    Metrics_BindAddress := bindAddress (MetricsPort eventsOpts);
    HealthProbeBindAddress := bindAddress (HealthPort eventsOpts);
    Cache_DefaultNamespaces := ∅;
    opt_LeaderElection := false;
    LeaderElectionID := "";
    LeaseDuration := None;
    RenewDeadline := None;
    RetryPeriod := None |} in
  let opts :=
    if Namespaced eventsOpts then
      {| Metrics_BindAddress := Metrics_BindAddress opts;
         HealthProbeBindAddress := HealthProbeBindAddress opts;
         Cache_DefaultNamespaces := {[ ManagedNamespace eventsOpts := cache_Config_empty ]};
         opt_LeaderElection := opt_LeaderElection opts;
         LeaderElectionID := LeaderElectionID opts;
         LeaseDuration := LeaseDuration opts;
         RenewDeadline := RenewDeadline opts;
         RetryPeriod := RetryPeriod opts |}
    else opts in
  if LeaderElection eventsOpts then
    lease ← lookupEnvDurationOr "LEADER_ELECTION_LEASE_DURATION" (15 * Second);
    renew ← lookupEnvDurationOr "LEADER_ELECTION_RENEW_DEADLINE" (10 * Second);
    retry ← lookupEnvDurationOr "LEADER_ELECTION_RETRY_PERIOD" (5 * Second);
    mret {| Metrics_BindAddress := Metrics_BindAddress opts;
            HealthProbeBindAddress := HealthProbeBindAddress opts;
            Cache_DefaultNamespaces := Cache_DefaultNamespaces opts;
            opt_LeaderElection := true;
            LeaderElectionID := "argo-events-controller";
            LeaseDuration := Some lease;
            RenewDeadline := Some renew;
            RetryPeriod := Some retry |}
  else mret opts.

(** The manager [ctrl.NewManager] returns, with what it was built from. *)
Record Manager := { mgr_options : Options }.

Definition mgr_GetCache (mgr : Manager) : Cache :=
  {| cache_namespaces := Cache_DefaultNamespaces (mgr_options mgr) |}.

(** [source.Kind(mgr.GetCache(), &kind{})] *)
Definition source_Kind (c : Cache) (k : Kind) : Source :=
  {| src_cache := c; src_kind := k |}.

(** Lines 96-101.  The two [OrDie] constructors end the process themselves:
    [GetConfigOrDie] logs and exits with code 1, [NewForConfigOrDie]
    panics. *)
Definition newManager (opts : Options) : Proc Manager :=
  err ← call ctrl_GetConfigOrDie;
  when (is_err err) (os_Exit 1);;
  err ← call (ctrl_NewManager opts);
  when (is_err err) (Fatalw "Unable to get a controller-runtime manager");;
  err ← call kubernetes_NewForConfigOrDie;
  match err with Some e => panic e | None => mret tt end;;
  mret {| mgr_options := opts |}.

(** Lines 103-111. *)
Definition addProbes : Proc unit :=
  err ← call (mgr_AddReadyzCheck "readiness");
  when (is_err err) (Fatalw "Unable add a readiness check");;
  err ← call (mgr_AddHealthzCheck "liveness");
  when (is_err err) (Fatalw "Unable add a health check").

(** Lines 113-123. *)
Definition addSchemes : Proc unit :=
  err ← call (AddToScheme eventbusv1alpha1);
  when (is_err err) (Fatalw "Unable to add scheme");;
  err ← call (AddToScheme eventsourcev1alpha1);
  when (is_err err) (Fatalw "Unable to add EventSource scheme");;
  err ← call (AddToScheme sensorv1alpha1);
  when (is_err err) (Fatalw "Unable to add Sensor scheme").

Definition generationOrLabelChanged : Predicate :=
  predicate_Or [GenerationChangedPredicate; LabelChangedPredicate].

(** Lines 125-161: the EventBus controller.  A controller is identified by
    the package under whose [ControllerName] it was created. *)
Definition eventBusPipeline (mgr : Manager) (config : Config) : Proc unit :=
  err ← call (controller_New eventbus
                (eventbus, [mgr_GetClient; kubeClient; mgr_GetScheme; arg_config config; arg_logger]));
  when (is_err err) (Fatalw "Unable to set up EventBus controller");;
  let eventBusController := eventbus in
  err ← call (Watch eventBusController (source_Kind (mgr_GetCache mgr) EventBus)
                EnqueueRequestForObject generationOrLabelChanged);
  when (is_err err) (Fatalw "Unable to watch EventBus");;
  err ← call (Watch eventBusController (source_Kind (mgr_GetCache mgr) ConfigMap)
                (EnqueueRequestForOwner EventBus [OnlyControllerOwner])
                GenerationChangedPredicate);
  when (is_err err) (Fatalw "Unable to watch ConfigMaps");;
  err ← call (Watch eventBusController (source_Kind (mgr_GetCache mgr) StatefulSet)
                (EnqueueRequestForOwner EventBus [OnlyControllerOwner])
                GenerationChangedPredicate);
  when (is_err err) (Fatalw "Unable to watch StatefulSets");;
  err ← call (Watch eventBusController (source_Kind (mgr_GetCache mgr) Service)
                (EnqueueRequestForOwner EventBus [OnlyControllerOwner])
                GenerationChangedPredicate);
  when (is_err err) (Fatalw "Unable to watch Services").

(** Lines 163-192: the EventSource controller. *)
Definition eventSourcePipeline (mgr : Manager) (imageName : string) : Proc unit :=
  err ← call (controller_New eventsource
                (eventsource, [mgr_GetClient; mgr_GetScheme; arg_imageName imageName; arg_logger]));
  when (is_err err) (Fatalw "Unable to set up EventSource controller");;
  let eventSourceController := eventsource in
  err ← call (Watch eventSourceController (source_Kind (mgr_GetCache mgr) EventSource)
                EnqueueRequestForObject generationOrLabelChanged);
  when (is_err err) (Fatalw "Unable to watch EventSources");;
  err ← call (Watch eventSourceController (source_Kind (mgr_GetCache mgr) Deployment)
                (EnqueueRequestForOwner EventSource [OnlyControllerOwner])
                GenerationChangedPredicate);
  when (is_err err) (Fatalw "Unable to watch Deployments");;
  err ← call (Watch eventSourceController (source_Kind (mgr_GetCache mgr) Service)
                (EnqueueRequestForOwner EventSource [OnlyControllerOwner])
                GenerationChangedPredicate);
  when (is_err err) (Fatalw "Unable to watch Services").

(** Lines 194-216: the Sensor controller. *)
Definition sensorPipeline (mgr : Manager) (imageName : string) : Proc unit :=
  err ← call (controller_New sensor
                (sensor, [mgr_GetClient; mgr_GetScheme; arg_imageName imageName; arg_logger]));
  when (is_err err) (Fatalw "Unable to set up Sensor controller");;
  let sensorController := sensor in
  err ← call (Watch sensorController (source_Kind (mgr_GetCache mgr) Sensor)
                EnqueueRequestForObject generationOrLabelChanged);
  when (is_err err) (Fatalw "Unable to watch Sensors");;
  err ← call (Watch sensorController (source_Kind (mgr_GetCache mgr) Deployment)
                (EnqueueRequestForOwner Sensor [OnlyControllerOwner])
                GenerationChangedPredicate);
  when (is_err err) (Fatalw "Unable to watch Deployments").

(** Lines 218-221.  [mgr.Start] blocks until the signal handler's context
    is cancelled and returns the manager's error, if any. *)
Definition runManager : Proc unit :=
  Infow "Starting controller manager";;
  err ← call mgr_Start;
  when (is_err err) (Fatalw "Unable to start controller manager").

Definition Start (eventsOpts : ArgoEventsControllerOpts) : Proc unit :=
  config ← loadGlobalConfig;
  imageName ← lookupImageName;
  opts ← managerOptions eventsOpts;
  mgr ← newManager opts;
  addProbes;;
  addSchemes;;
  eventBusPipeline mgr config;;
  eventSourcePipeline mgr imageName;;
  sensorPipeline mgr imageName;;
  runManager.

(** ** The bootstrap as a list of steps

    After the configuration, the image name and the manager options are
    known, the rest of [Start] is one fallible call after another, each
    with its own reaction to an error.  [bootstrap_steps] lists them in
    source order and [run_steps] runs such a list; [Start_steps] below
    shows that [Start] is exactly that run. *)

Inductive OnError :=
| LogFatal (msg : string)   (* logger.Fatalw(msg, ...) *)
| Die                       (* os.Exit(1) inside the callee *)
| PanicErr.                 (* panic(err) inside the callee *)

Inductive Step :=
| StepCall (c : Call) (h : OnError)
| StepInfo (msg : string).

Definition react (h : OnError) (e : Error) : Proc unit :=
  match h with
  | LogFatal msg => Fatalw msg
  | Die => os_Exit 1
  | PanicErr => panic e
  end.

Fixpoint run_steps (steps : list Step) : Proc unit :=
  match steps with
  | [] => mret tt
  | StepInfo msg :: rest => Infow msg;; run_steps rest
  | StepCall c h :: rest =>
      err ← call c;
      match err with Some e => react h e | None => mret tt end;;
      run_steps rest
  end.

Definition bootstrap_steps (config : Config) (imageName : string) (opts : Options)
  : list Step :=
  let cache := {| cache_namespaces := Cache_DefaultNamespaces opts |} in
  let ownedBy k := EnqueueRequestForOwner k [OnlyControllerOwner] in
  [ StepCall ctrl_GetConfigOrDie Die;
    StepCall (ctrl_NewManager opts) (LogFatal "Unable to get a controller-runtime manager");
    StepCall kubernetes_NewForConfigOrDie PanicErr;
    StepCall (mgr_AddReadyzCheck "readiness") (LogFatal "Unable add a readiness check");
    StepCall (mgr_AddHealthzCheck "liveness") (LogFatal "Unable add a health check");
    StepCall (AddToScheme eventbusv1alpha1) (LogFatal "Unable to add scheme");
    StepCall (AddToScheme eventsourcev1alpha1) (LogFatal "Unable to add EventSource scheme");
    StepCall (AddToScheme sensorv1alpha1) (LogFatal "Unable to add Sensor scheme");
    StepCall (controller_New eventbus
                (eventbus, [mgr_GetClient; kubeClient; mgr_GetScheme; arg_config config; arg_logger]))
             (LogFatal "Unable to set up EventBus controller");
    StepCall (Watch eventbus (source_Kind cache EventBus)
                EnqueueRequestForObject generationOrLabelChanged)
             (LogFatal "Unable to watch EventBus");
    StepCall (Watch eventbus (source_Kind cache ConfigMap)
                (ownedBy EventBus) GenerationChangedPredicate)
             (LogFatal "Unable to watch ConfigMaps");
    StepCall (Watch eventbus (source_Kind cache StatefulSet)
                (ownedBy EventBus) GenerationChangedPredicate)
             (LogFatal "Unable to watch StatefulSets");
    StepCall (Watch eventbus (source_Kind cache Service)
                (ownedBy EventBus) GenerationChangedPredicate)
             (LogFatal "Unable to watch Services");
    StepCall (controller_New eventsource
                (eventsource, [mgr_GetClient; mgr_GetScheme; arg_imageName imageName; arg_logger]))
             (LogFatal "Unable to set up EventSource controller");
    StepCall (Watch eventsource (source_Kind cache EventSource)
                EnqueueRequestForObject generationOrLabelChanged)
             (LogFatal "Unable to watch EventSources");
    StepCall (Watch eventsource (source_Kind cache Deployment)
                (ownedBy EventSource) GenerationChangedPredicate)
             (LogFatal "Unable to watch Deployments");
    StepCall (Watch eventsource (source_Kind cache Service)
                (ownedBy EventSource) GenerationChangedPredicate)
             (LogFatal "Unable to watch Services");
    StepCall (controller_New sensor
                (sensor, [mgr_GetClient; mgr_GetScheme; arg_imageName imageName; arg_logger]))
             (LogFatal "Unable to set up Sensor controller");
    StepCall (Watch sensor (source_Kind cache Sensor)
                EnqueueRequestForObject generationOrLabelChanged)
             (LogFatal "Unable to watch Sensors");
    StepCall (Watch sensor (source_Kind cache Deployment)
                (ownedBy Sensor) GenerationChangedPredicate)
             (LogFatal "Unable to watch Deployments");
    StepInfo "Starting controller manager";
    StepCall mgr_Start (LogFatal "Unable to start controller manager") ].

(** What [react] and [run_steps] come to in a world: the outcome and the
    events added. *)
Definition react_result (h : OnError) (e : Error) : Outcome unit * list Event :=
  match h with
  | LogFatal msg => (Exited 1, [EvLog FatalLevel msg])
  | Die => (Exited 1, [])
  | PanicErr => (Panicked e, [])
  end.

Fixpoint steps_result (w : World) (steps : list Step) : Outcome unit * list Event :=
  match steps with
  | [] => (Returned tt, [])
  | StepInfo msg :: rest =>
      let '(o, t) := steps_result w rest in (o, EvLog InfoLevel msg :: t)
  | StepCall c h :: rest =>
      match call_error w c with
      | Some e => let '(o, t) := react_result h e in (o, EvCall c :: t)
      | None => let '(o, t) := steps_result w rest in (o, EvCall c :: t)
      end
  end.

(** The part of [Start] before the first of those steps (lines 61-95). *)
Definition prelude (eventsOpts : ArgoEventsControllerOpts)
  : Proc (Config * string * Options) :=
  config ← loadGlobalConfig;
  imageName ← lookupImageName;
  opts ← managerOptions eventsOpts;
  mret (config, imageName, opts).

Definition fatal_entry (msg : string) : Event := EvLog FatalLevel msg.

Definition image_missing_entry : Event :=
  fatal_entry "required environment variable 'ARGO_EVENTS_IMAGE' not defined".

(** What [lookupEnvDurationOr key o] comes to in a world: the duration it
    returns, or [None] when it ends the process. *)
Definition resolve (w : World) (key : string) (o : Duration) : option Duration :=
  match environ w !! key with
  | Some v => if String.eqb v "" then Some o else parse_duration w v
  | None => Some o
  end.

(** The options [Start] assembles, up to the three leader-election
    durations. *)
Definition options_with (eventsOpts : ArgoEventsControllerOpts)
    (lease renew retry : option Duration) : Options := {|
  Metrics_BindAddress := bindAddress (MetricsPort eventsOpts);
  HealthProbeBindAddress := bindAddress (HealthPort eventsOpts);
  Cache_DefaultNamespaces :=
    if Namespaced eventsOpts
    then {[ ManagedNamespace eventsOpts := cache_Config_empty ]}
    else ∅;
  opt_LeaderElection := LeaderElection eventsOpts;
  LeaderElectionID :=
    if LeaderElection eventsOpts then "argo-events-controller" else "";
  LeaseDuration := lease;
  RenewDeadline := renew;
  RetryPeriod := retry
|}.

Definition step_call (s : Step) : option Call :=
  match s with StepCall c _ => Some c | StepInfo _ => None end.

(** The calls of a whole bootstrap, in source order. *)
Definition bootstrap_calls (config : Config) (imageName : string) (opts : Options)
  : list Call :=
  controllers_LoadConfig :: controllers_ValidateConfig config ::
  omap step_call (bootstrap_steps config imageName opts).

(** ** Reading a trace *)

Definition outcome_of {A} (r : Outcome A * list Event) : Outcome A := r.1.
Definition trace_of {A} (r : Outcome A * list Event) : list Event := r.2.

Definition event_call (e : Event) : option Call :=
  match e with EvCall c => Some c | _ => None end.

(** The collaborator calls of a trace, in order. *)
Definition calls (tr : list Event) : list Call := omap event_call tr.

Definition failed (w : World) (c : Call) : Prop := is_Some (call_error w c).

(** In a list of calls made one after the other, a call that fails is the
    last one. *)
Definition stops_at_failure (w : World) (l : list Call) : Prop :=
  ∀ pre c post, l = pre ++ c :: post → failed w c → post = [].

(** A watch as the controller records it: [c.Watch(src, handler, predicate)]. *)
Record WatchRegistration := {
  reg_controller : Package;
  reg_source : Source;
  reg_handler : EventHandler;
  reg_predicate : Predicate
}.

Definition call_watch (c : Call) : option WatchRegistration :=
  match c with
  | Watch c src h p =>
      Some {| reg_controller := c; reg_source := src;
              reg_handler := h; reg_predicate := p |}
  | _ => None
  end.

(** The watches a trace registered, in order. *)
Definition watches (tr : list Event) : list WatchRegistration :=
  omap call_watch (calls tr).

(** A bootstrap step that failed: a collaborator call that returned an
    error, or the lookup of the required image variable that found it
    unset. *)
Definition step_failed (w : World) (e : Event) : Prop :=
  match e with
  | EvCall c => failed w c
  | EvLookupEnv k => k = imageEnvVar ∧ environ w !! k = None
  | EvLog _ _ => False
  end.

(** The bootstrap phases of the specification, and the phase each call
    belongs to. *)
Inductive Phase :=
| ConfigLoad
| ConfigValidation
| ManagerConstruction
| ProbeRegistration
| SchemeRegistration
| ControllerBuild (p : Package)
| WatchRegistering (p : Package)
| Run.

Definition call_phase (c : Call) : Phase :=
  match c with
  | controllers_LoadConfig => ConfigLoad
  | controllers_ValidateConfig _ => ConfigValidation
  | ctrl_GetConfigOrDie | ctrl_NewManager _ | kubernetes_NewForConfigOrDie =>
      ManagerConstruction
  | mgr_AddReadyzCheck _ | mgr_AddHealthzCheck _ => ProbeRegistration
  | AddToScheme _ => SchemeRegistration
  | controller_New p _ => ControllerBuild p
  | Watch p _ _ _ => WatchRegistering p
  | mgr_Start => Run
  end.

Definition spec_phases : list Phase :=
  [ ConfigLoad; ConfigValidation ] ++
  replicate 3 ManagerConstruction ++
  replicate 2 ProbeRegistration ++
  replicate 3 SchemeRegistration ++
  ControllerBuild eventbus :: replicate 4 (WatchRegistering eventbus) ++
  ControllerBuild eventsource :: replicate 3 (WatchRegistering eventsource) ++
  ControllerBuild sensor :: replicate 2 (WatchRegistering sensor) ++
  [ Run ].

(** The manager options a trace asked a manager for. *)
Definition call_manager_options (c : Call) : option Options :=
  match c with ctrl_NewManager opts => Some opts | _ => None end.

Definition manager_options (tr : list Event) : list Options :=
  omap call_manager_options (calls tr).

(** Whether a call builds controller [p] or registers a watch on it. *)
Definition for_controller (p : Package) (c : Call) : bool :=
  match c with
  | controller_New name _ => bool_decide (name = p)
  | Watch c' _ _ _ => bool_decide (c' = p)
  | _ => false
  end.

(** The construction of one controller's pipeline in a trace: its
    [controller.New] and its [Watch] calls, with their arguments. *)
Definition pipeline (p : Package) (tr : list Event) : list Call :=
  List.filter (for_controller p) (calls tr).

Definition arg_image (a : Arg) : option string :=
  match a with arg_imageName s => Some s | _ => None end.

(** The image names a call receives. *)
Definition call_images (c : Call) : list string :=
  match c with
  | controller_New _ (_, args) => omap arg_image args
  | _ => []
  end.

(** The reconciler arguments of the three [NewReconciler] calls. *)
Definition eventbus_reconciler (config : Config) : Package * list Arg :=
  (eventbus, [mgr_GetClient; kubeClient; mgr_GetScheme; arg_config config; arg_logger]).
Definition image_reconciler (p : Package) (imageName : string) : Package * list Arg :=
  (p, [mgr_GetClient; mgr_GetScheme; arg_imageName imageName; arg_logger]).

(** Two worlds that differ at most in the values of the environment
    variables in [keys]. *)
Record same_except (keys : list string) (w1 w2 : World) : Prop := {
  same_environ : ∀ k, k ∉ keys → environ w1 !! k = environ w2 !! k;
  same_parse : ∀ v, parse_duration w1 v = parse_duration w2 v;
  same_config : loaded_config w1 = loaded_config w2;
  same_calls : ∀ c, call_error w1 c = call_error w2 c
}.

(** The world after [key=v] is put in the environment. *)
Definition with_env (w : World) (key v : string) : World := {|
  environ := <[ key := v ]> (environ w);
  parse_duration := parse_duration w;
  loaded_config := loaded_config w;
  call_error := call_error w
|}.

(** A computation that cannot tell two related worlds apart. *)
Definition respects (R : World → World → Prop) {A} (m : Proc A) : Prop :=
  ∀ w1 w2 tr, R w1 w2 → m w1 tr = m w2 tr.

Definition call_controller (c : Call) : option Package :=
  match c with controller_New name _ => Some name | _ => None end.

(** The controllers a trace created, in order. *)
Definition controllers (tr : list Event) : list Package :=
  omap call_controller (calls tr).

Definition event_lookup (e : Event) : option string :=
  match e with EvLookupEnv k => Some k | _ => None end.

(** The environment keys a trace consulted, in order. *)
Definition lookups (tr : list Event) : list string := omap event_lookup tr.

(** The variable is unset, or set to the empty string. *)
Definition absent_or_empty (w : World) (key : string) : Prop :=
  environ w !! key = None ∨ environ w !! key = Some "".

Definition leader_keys : list string :=
  [ "LEADER_ELECTION_LEASE_DURATION";
    "LEADER_ELECTION_RENEW_DEADLINE";
    "LEADER_ELECTION_RETRY_PERIOD" ].

(** The events of a prelude that goes through. *)
Definition prelude_events (eo : ArgoEventsControllerOpts) (w : World) : list Event :=
  [ EvCall controllers_LoadConfig;
    EvCall (controllers_ValidateConfig (loaded_config w));
    EvLookupEnv imageEnvVar ] ++
  (if LeaderElection eo then EvLookupEnv <$> leader_keys else []).

(** The traces of a prelude that ends the process, one case per fatal
    call in lines 61-95. *)
Inductive abort_spec (eo : ArgoEventsControllerOpts) (w : World) : list Event → Prop :=
| abort_load :
    failed w controllers_LoadConfig →
    abort_spec eo w
      [ EvCall controllers_LoadConfig;
        fatal_entry "Failed to load global configuration file" ]
| abort_validate :
    call_error w controllers_LoadConfig = None →
    failed w (controllers_ValidateConfig (loaded_config w)) →
    abort_spec eo w
      [ EvCall controllers_LoadConfig;
        EvCall (controllers_ValidateConfig (loaded_config w));
        fatal_entry "Global configuration file validation failed" ]
| abort_image :
    call_error w controllers_LoadConfig = None →
    call_error w (controllers_ValidateConfig (loaded_config w)) = None →
    environ w !! imageEnvVar = None →
    abort_spec eo w
      [ EvCall controllers_LoadConfig;
        EvCall (controllers_ValidateConfig (loaded_config w));
        EvLookupEnv imageEnvVar;
        image_missing_entry ]
| abort_duration n :
    call_error w controllers_LoadConfig = None →
    call_error w (controllers_ValidateConfig (loaded_config w)) = None →
    is_Some (environ w !! imageEnvVar) →
    LeaderElection eo = true →
    (n < 3)%nat →
    abort_spec eo w
      ([ EvCall controllers_LoadConfig;
         EvCall (controllers_ValidateConfig (loaded_config w));
         EvLookupEnv imageEnvVar ] ++
       (EvLookupEnv <$> take (S n) leader_keys) ++
       [ fatal_entry "parsing %s duration" ]).

(** The two shapes of a run of [Start] from an empty trace.  Either the
    prelude ends the process with status 1, before a manager is asked for;
    or the prelude goes through and the rest is the run of
    [bootstrap_steps]. *)
Inductive Start_spec (eo : ArgoEventsControllerOpts) (w : World)
  : Outcome unit * list Event → Prop :=
| Start_aborted t :
    abort_spec eo w t →
    Start_spec eo w (Exited 1, t)
| Start_bootstrapped imageName lease renew retry :
    call_error w controllers_LoadConfig = None →
    call_error w (controllers_ValidateConfig (loaded_config w)) = None →
    environ w !! imageEnvVar = Some imageName →
    (if LeaderElection eo
     then is_Some lease ∧ is_Some renew ∧ is_Some retry ∧
          lease = resolve w "LEADER_ELECTION_LEASE_DURATION" (15 * Second) ∧
          renew = resolve w "LEADER_ELECTION_RENEW_DEADLINE" (10 * Second) ∧
          retry = resolve w "LEADER_ELECTION_RETRY_PERIOD" (5 * Second)
     else lease = None ∧ renew = None ∧ retry = None) →
    let opts := options_with eo lease renew retry in
    let r := steps_result w (bootstrap_steps (loaded_config w) imageName opts) in
    Start_spec eo w (r.1, prelude_events eo w ++ r.2).

End Bootstrap.

(** The resource kind each controller reconciles. *)
Definition primary_kind (c : Package) : Kind :=
  match c with
  | eventbus => EventBus
  | eventsource => EventSource
  | sensor => Sensor
  end.

Definition is_primary (k : Kind) : bool :=
  match k with EventBus | EventSource | Sensor => true | _ => false end.

(** ** What a registered watch does with an update

    The predicates and handlers are controller-runtime's; the source only
    names them. *)

Record NamespacedName := { Namespace : string; Name : string }.

Record OwnerReference := {
  ref_kind : Kind;
  ref_name : string;
  ref_controller : bool
}.

(** The metadata of a cluster object the predicates and handlers read, and
    its status, which they do not. *)
Record Object := {
  obj_namespace : string;
  obj_name : string;
  obj_generation : Z;
  obj_labels : gmap string string;
  obj_ownerReferences : list OwnerReference;
  obj_status : string
}.

Definition object_key (o : Object) : NamespacedName :=
  {| Namespace := obj_namespace o; Name := obj_name o |}.

(** Modelled from the spec: [predicate.GenerationChangedPredicate],
    [predicate.LabelChangedPredicate] and [predicate.Or] of
    controller-runtime, on an update from [old] to [new]:
    "generationChanged", "labelChanged", and the boolean "or". *)
Fixpoint predicate_Update (p : Predicate) (old new : Object) : bool :=
  match p with
  | GenerationChangedPredicate =>
      negb (obj_generation new =? obj_generation old)%Z
  | LabelChangedPredicate =>
      negb (bool_decide (obj_labels new = obj_labels old))
  | predicate_Or ps => existsb (fun q => predicate_Update q old new) ps
  end.

(** The controller-owner reference of an object: the owner reference
    flagged as controller. *)
Definition controllerOf (o : Object) : option OwnerReference :=
  List.find ref_controller (obj_ownerReferences o).

Definition owner_key (o : Object) (r : OwnerReference) : NamespacedName :=
  {| Namespace := obj_namespace o; Name := ref_name r |}.

(** Modelled from the spec: [handler.EnqueueRequestForObject] and
    [handler.EnqueueRequestForOwner] of controller-runtime.  The first
    "enqueues the primary object's own namespaced name".  The second, with
    [OnlyControllerOwner], "resolves the subordinate object's
    controller-owner reference; if it names kind O, enqueues the owner's
    namespaced name; otherwise the event is dropped"; without that option
    every owner reference of kind O counts. *)
Definition handler_requests (h : EventHandler) (o : Object) : list NamespacedName :=
  match h with
  | EnqueueRequestForObject => [object_key o]
  | EnqueueRequestForOwner ownerType opts =>
      if bool_decide (OnlyControllerOwner ∈ opts) then
        match controllerOf o with
        | Some r =>
            if bool_decide (ref_kind r = ownerType) then [owner_key o r] else []
        | None => []
        end
      else
        owner_key o <$>
          filter (fun r => ref_kind r = ownerType) (obj_ownerReferences o)
  end.

#[export] Instance NamespacedName_eq_dec : EqDecision NamespacedName.
Proof. solve_decision. Defined.

(** Modelled from the spec: what the handlers of controller-runtime enqueue
    for an update, which carries the object before and after.
    [EnqueueRequestForObject] "enqueues the primary object's own namespaced
    name", that of the object after the update.  [EnqueueRequestForOwner]
    resolves the owner of the object before and of the object after, as
    [handler_requests] does for one object, and adds each request once;
    the order in which it adds them is not fixed. *)
Definition handler_Update (h : EventHandler) (old new : Object)
  : list NamespacedName :=
  match h with
  | EnqueueRequestForObject => [object_key new]
  | EnqueueRequestForOwner _ _ =>
      remove_dups (handler_requests h old ++ handler_requests h new)
  end.

(** Modelled from the spec: the reconcile requests an update adds through
    a registered watch, each with the controller whose queue receives it.
    The predicate filters the event; the handler belongs to the controller
    the watch was registered on. *)
Definition on_update (r : WatchRegistration) (old new : Object)
  : list (Package * NamespacedName) :=
  if predicate_Update (reg_predicate r) old new
  then pair (reg_controller r) <$> handler_Update (reg_handler r) old new
  else [].

(** The cache [Start] configures: restricted to the managed namespace when
    the options ask for it, unrestricted otherwise. *)
Definition managed_cache (eo : ArgoEventsControllerOpts) : Cache :=
  {| cache_namespaces :=
       if Namespaced eo
       then {[ ManagedNamespace eo := cache_Config_empty ]}
       else ∅ |}.

Definition primary_watch (c : Package) (cache : Cache) : WatchRegistration :=
  {| reg_controller := c;
     reg_source := {| src_cache := cache; src_kind := primary_kind c |};
     reg_handler := EnqueueRequestForObject;
     reg_predicate := predicate_Or [GenerationChangedPredicate; LabelChangedPredicate] |}.

Definition secondary_watch (c : Package) (cache : Cache) (k : Kind) : WatchRegistration :=
  {| reg_controller := c;
     reg_source := {| src_cache := cache; src_kind := k |};
     reg_handler := EnqueueRequestForOwner (primary_kind c) [OnlyControllerOwner];
     reg_predicate := GenerationChangedPredicate |}.

(** The wiring table of the specification, row by row: for each
    controller its primary watch, then its owner-routed secondary
    watches. *)
Definition spec_wiring (cache : Cache) : list WatchRegistration :=
  [ primary_watch eventbus cache;
    secondary_watch eventbus cache ConfigMap;
    secondary_watch eventbus cache StatefulSet;
    secondary_watch eventbus cache Service;
    primary_watch eventsource cache;
    secondary_watch eventsource cache Deployment;
    secondary_watch eventsource cache Service;
    primary_watch sensor cache;
    secondary_watch sensor cache Deployment ].

(** The kind of object whose key a watch enqueues. *)
Definition routed_kind (reg : WatchRegistration) : Kind :=
  match reg_handler reg with
  | EnqueueRequestForObject => src_kind (reg_source reg)
  | EnqueueRequestForOwner ownerType _ => ownerType
  end.

(** ** The shapes of a run, with their causes *)

Section Shapes.

Context {Config : Type}.

(** The variable is set to a non-empty value that [time.ParseDuration]
    rejects. *)
Definition malformed (w : @World Config) (key : string) : Prop :=
  ∃ v, environ w !! key = Some v ∧ v ≠ "" ∧ parse_duration w v = None.

(** The options [Start] hands to [ctrl.NewManager] when it gets that far:
    with leader election on, each duration is what its variable resolves
    to against its own default. *)
Definition assembled_options (eo : ArgoEventsControllerOpts) (w : @World Config)
  : Options :=
  if LeaderElection eo then
    options_with eo
      (resolve w "LEADER_ELECTION_LEASE_DURATION" (15 * Second))
      (resolve w "LEADER_ELECTION_RENEW_DEADLINE" (10 * Second))
      (resolve w "LEADER_ELECTION_RETRY_PERIOD" (5 * Second))
  else options_with eo None None None.

(** Every run of [Start] from an empty trace, case by case along lines
    61-95, each case with the answers of the world that lead to it. *)
Inductive bootstrap_run (eo : ArgoEventsControllerOpts) (w : @World Config)
  : Outcome unit * list (@Event Config) → Prop :=
| run_load_failed :
    failed w controllers_LoadConfig →
    bootstrap_run eo w
      (Exited 1,
       [ EvCall controllers_LoadConfig;
         fatal_entry "Failed to load global configuration file" ])
| run_validate_failed :
    call_error w controllers_LoadConfig = None →
    failed w (controllers_ValidateConfig (loaded_config w)) →
    bootstrap_run eo w
      (Exited 1,
       [ EvCall controllers_LoadConfig;
         EvCall (controllers_ValidateConfig (loaded_config w));
         fatal_entry "Global configuration file validation failed" ])
| run_image_unset :
    call_error w controllers_LoadConfig = None →
    call_error w (controllers_ValidateConfig (loaded_config w)) = None →
    environ w !! imageEnvVar = None →
    bootstrap_run eo w
      (Exited 1,
       [ EvCall controllers_LoadConfig;
         EvCall (controllers_ValidateConfig (loaded_config w));
         EvLookupEnv imageEnvVar;
         image_missing_entry ])
| run_duration_malformed imageName n key :
    call_error w controllers_LoadConfig = None →
    call_error w (controllers_ValidateConfig (loaded_config w)) = None →
    environ w !! imageEnvVar = Some imageName →
    LeaderElection eo = true →
    leader_keys !! n = Some key →
    malformed w key →
    (∀ m k, (m < n)%nat → leader_keys !! m = Some k → ¬ malformed w k) →
    bootstrap_run eo w
      (Exited 1,
       [ EvCall controllers_LoadConfig;
         EvCall (controllers_ValidateConfig (loaded_config w));
         EvLookupEnv imageEnvVar ] ++
       (EvLookupEnv <$> take (S n) leader_keys) ++
       [ fatal_entry "parsing %s duration" ])
| run_steps_reached imageName :
    call_error w controllers_LoadConfig = None →
    call_error w (controllers_ValidateConfig (loaded_config w)) = None →
    environ w !! imageEnvVar = Some imageName →
    (LeaderElection eo = true → Forall (fun k => ¬ malformed w k) leader_keys) →
    let r := steps_result w
               (bootstrap_steps (loaded_config w) imageName (assembled_options eo w)) in
    bootstrap_run eo w (r.1, prelude_events eo w ++ r.2).

(** Each leader-election duration of [opts] is the default of its own
    variable whenever that variable is unset or empty, whatever the other
    two variables hold: 15s for the lease, 10s for the renew deadline, 5s
    for the retry period. *)
Definition own_defaults (w : @World Config) (opts : Options) : Prop :=
  (absent_or_empty w "LEADER_ELECTION_LEASE_DURATION" →
   LeaseDuration opts = Some 15000000000) ∧
  (absent_or_empty w "LEADER_ELECTION_RENEW_DEADLINE" →
   RenewDeadline opts = Some 10000000000) ∧
  (absent_or_empty w "LEADER_ELECTION_RETRY_PERIOD" →
   RetryPeriod opts = Some 5000000000).

(** The event a step leaves in the trace when it runs. *)
Definition step_event (s : @Step Config) : @Event Config :=
  match s with
  | StepCall c _ => EvCall c
  | StepInfo msg => EvLog InfoLevel msg
  end.

End Shapes.

(** ** Example worlds

    [time.ParseDuration] belongs to Go's standard library.  The worlds used
    in examples answer with [parseDuration], which follows it on the
    grammar [[-+]?([0-9]+unit)+] (and the special case "0"): the same
    digits loop with its overflow checks, the same unit table, the same
    running total held in 64 bits, the same range check at the end.  A fractional part, which Go evaluates in
    floating point, is outside this fragment and is not accepted. *)

Definition is_digit (c : ascii) : bool :=
  ((48 <=? Z.of_nat (nat_of_ascii c)) && (Z.of_nat (nat_of_ascii c) <=? 57))%Z.

Fixpoint leadingInt (x : Z) (s : string) : option (Z * string) :=
  match s with
  | String c rest =>
      if is_digit c then
        if (2 ^ 63 `div` 10 <? x)%Z then None
        else
          let x' := x * 10 + (Z.of_nat (nat_of_ascii c) - 48) in
          if (2 ^ 63 <? x')%Z then None else leadingInt x' rest
      else Some (x, s)
  | EmptyString => Some (x, s)
  end.

(** The unit: the characters up to the next digit or period. *)
Fixpoint leadingUnit (s : string) : string * string :=
  match s with
  | String c rest =>
      if is_digit c || Ascii.eqb c "." then ("", s)
      else let '(u, s') := leadingUnit rest in (String c u, s')
  | EmptyString => ("", s)
  end.

Definition micro_sign : string :=
  String (ascii_of_nat 194) (String (ascii_of_nat 181) "s").
Definition greek_mu : string :=
  String (ascii_of_nat 206) (String (ascii_of_nat 188) "s").

Definition unitMap (u : string) : option Z :=
  if String.eqb u "ns" then Some 1
  else if String.eqb u "us" || String.eqb u micro_sign || String.eqb u greek_mu then Some 1000
  else if String.eqb u "ms" then Some 1000000
  else if String.eqb u "s" then Some Second
  else if String.eqb u "m" then Some (60 * Second)
  else if String.eqb u "h" then Some (3600 * Second)
  else None.

Fixpoint parseTerms (fuel : nat) (d : Z) (s : string) : option Z :=
  match fuel with
  | O => None
  | S fuel =>
      match s with
      | EmptyString => Some d
      | String c _ =>
          if negb (is_digit c) then None
          else
            '(v, s1) ← leadingInt 0 s;
            let '(u, s2) := leadingUnit s1 in
            if String.eqb u "" then None
            else
              unit ← unitMap u;
              if (2 ^ 63 `div` unit <? v)%Z then None
              else
                let d' := (d + v * unit) `mod` 2 ^ 64 in
                if (2 ^ 63 <? d')%Z then None else parseTerms fuel d' s2
      end
  end.

Definition parseDuration (s : string) : option Duration :=
  let '(neg, s) :=
    match s with
    | String c rest =>
        if Ascii.eqb c "-" then (true, rest)
        else if Ascii.eqb c "+" then (false, rest)
        else (false, s)
    | EmptyString => (false, s)
    end in
  if String.eqb s "0" then Some 0
  else if String.eqb s "" then None
  else
    d ← parseTerms (S (String.length s)) 0 s;
    if neg then Some (- d)
    else if (2 ^ 63 - 1 <? d)%Z then None else Some d.

Definition quiet_calls {Config : Type} : @Call Config -> option Error := fun _ => None.

(** A cluster where every collaborator succeeds and only the image
    variable is set. *)
Definition plain_world : @World unit := {|
  environ := {[ imageEnvVar := "quay.io/argoproj/argo-events:latest" ]};
  parse_duration := parseDuration;
  loaded_config := tt;
  call_error := quiet_calls
|}.

(** The same cluster with a lease duration that is not a duration. *)
Definition malformed_world : @World unit := {|
  environ := {[ imageEnvVar := "quay.io/argoproj/argo-events:latest";
                "LEADER_ELECTION_LEASE_DURATION" := "abc" ]};
  parse_duration := parseDuration;
  loaded_config := tt;
  call_error := quiet_calls
|}.

(** The same cluster with the renew deadline set to the empty string. *)
Definition empty_renew_world : @World unit := {|
  environ := {[ imageEnvVar := "quay.io/argoproj/argo-events:latest";
                "LEADER_ELECTION_RENEW_DEADLINE" := "" ]};
  parse_duration := parseDuration;
  loaded_config := tt;
  call_error := quiet_calls
|}.

Definition leader_opts : ArgoEventsControllerOpts := {|
  Namespaced := false;
  ManagedNamespace := "";
  LeaderElection := true;
  MetricsPort := 7777;
  HealthPort := 8081
|}.

(** A cluster where the image variable is unset. *)
Definition no_image_world : @World unit := {|
  environ := ∅;
  parse_duration := parseDuration;
  loaded_config := tt;
  call_error := quiet_calls
|}.

(** A cluster that refuses the EventBus controller's watch on stateful
    sets. *)
Definition statefulset_watch_fails (c : @Call unit) : option Error :=
  match c with
  | Watch eventbus src _ _ =>
      match src_kind src with
      | StatefulSet => Some "no matches for kind StatefulSet"
      | _ => None
      end
  | _ => None
  end.

Definition broken_world : @World unit := {|
  environ := {[ imageEnvVar := "quay.io/argoproj/argo-events:latest" ]};
  parse_duration := parseDuration;
  loaded_config := tt;
  call_error := statefulset_watch_fails
|}.

Definition namespaced_opts : ArgoEventsControllerOpts := {|
  Namespaced := true;
  ManagedNamespace := "ns-a";
  LeaderElection := false;
  MetricsPort := 7777;
  HealthPort := 8081
|}.



(** A sensor, with its generation, labels and status. *)
Definition a_sensor (generation : Z) (labels : gmap string string) (status : string)
  : Object := {|
  obj_namespace := "argo-events";
  obj_name := "webhook";
  obj_generation := generation;
  obj_labels := labels;
  obj_ownerReferences := [];
  obj_status := status
|}.

(** The cluster with a lease of 30s and a retry period of 2s asked for,
    the renew deadline left alone. *)
Definition override_world : @World unit := {|
  environ := {[ imageEnvVar := "quay.io/argoproj/argo-events:latest";
                "LEADER_ELECTION_LEASE_DURATION" := "30s";
                "LEADER_ELECTION_RETRY_PERIOD" := "2s" ]};
  parse_duration := parseDuration;
  loaded_config := tt;
  call_error := quiet_calls
|}.

(** The cluster with a malformed retry period. *)
Definition malformed_retry_world : @World unit := {|
  environ := {[ imageEnvVar := "quay.io/argoproj/argo-events:latest";
                "LEADER_ELECTION_RETRY_PERIOD" := "5 seconds" ]};
  parse_duration := parseDuration;
  loaded_config := tt;
  call_error := quiet_calls
|}.

(** A cluster whose kube client cannot be built. *)
Definition kube_client_fails (c : @Call unit) : option Error :=
  match c with
  | kubernetes_NewForConfigOrDie => Some "invalid configuration"
  | _ => None
  end.

Definition no_kube_client_world : @World unit := {|
  environ := {[ imageEnvVar := "quay.io/argoproj/argo-events:latest" ]};
  parse_duration := parseDuration;
  loaded_config := tt;
  call_error := kube_client_fails
|}.

(** A cluster whose manager stops with an error. *)
Definition manager_stops (c : @Call unit) : option Error :=
  match c with
  | mgr_Start => Some "leader election lost"
  | _ => None
  end.

Definition manager_stops_world : @World unit := {|
  environ := {[ imageEnvVar := "quay.io/argoproj/argo-events:latest" ]};
  parse_duration := parseDuration;
  loaded_config := tt;
  call_error := manager_stops
|}.

(** The cluster with the image variable set to the empty string. *)
Definition empty_image_world : @World unit := {|
  environ := {[ imageEnvVar := "" ]};
  parse_duration := parseDuration;
  loaded_config := tt;
  call_error := quiet_calls
|}.

Definition plain_opts : ArgoEventsControllerOpts := {|
  Namespaced := false;
  ManagedNamespace := "";
  LeaderElection := false;
  MetricsPort := 7777;
  HealthPort := 8081
|}.


(** * Proofs *)

Section Proofs.

Context {Config : Type}.
Implicit Types (w : @World Config) (tr : list (@Event Config)).

(** ** The monad *)

Lemma bind_run {A B} (m : Proc A) (k : A -> Proc B) w tr :
  (m ≫= k) w tr =
  match m w tr with
  | (Returned a, tr') => k a w tr'
  | (Exited c, tr') => (Exited c, tr')
  | (Panicked e, tr') => (Panicked e, tr')
  end.
Proof. reflexivity. Qed.

(** Unfold the monad and the pieces of [Start], leaving the world's
    answers as the only stuck terms. *)
Ltac proc_unfold :=
  cbv [mbind mret Proc_bind Proc_ret call emit when is_err
       Fatalw Fatalf Infow Errorw os_Exit panic react run_steps bootstrap_steps
       newManager addProbes addSchemes eventBusPipeline eventSourcePipeline
       sensorPipeline runManager mgr_GetCache mgr_options source_Kind
       generationOrLabelChanged].

Ltac run_call w :=
  match goal with
  | |- context [call_error w ?c] => destruct (call_error w c)
  end.

(** [Start] is its prelude followed by the run of [bootstrap_steps]. *)
Lemma Start_steps eo w tr :
  Start eo w tr =
  (prelude eo ≫= fun '(config, imageName, opts) =>
     run_steps (bootstrap_steps config imageName opts)) w tr.
Proof.
  unfold Start, prelude. rewrite !bind_run.
  destruct (loadGlobalConfig w tr) as [[config|code|e] tr1]; try reflexivity.
  rewrite !bind_run.
  destruct (lookupImageName w tr1) as [[imageName|code|e] tr2]; try reflexivity.
  rewrite !bind_run.
  destruct (managerOptions eo w tr2) as [[opts|code|e] tr3]; try reflexivity.
  proc_unfold.
  repeat (run_call w; try reflexivity).
Qed.

(** ** The pieces of the prelude *)

Lemma lookupEnvDurationOr_run key o w tr :
  lookupEnvDurationOr key o w tr =
  match resolve w key o with
  | Some d => (Returned d, tr ++ [EvLookupEnv key])
  | None =>
      (Exited 1, tr ++ [EvLookupEnv key; fatal_entry "parsing %s duration"])
  end.
Proof.
  unfold lookupEnvDurationOr, resolve, os_LookupEnv, time_ParseDuration.
  proc_unfold.
  destruct (environ w !! key) as [v|]; cbn [andb negb]; [|reflexivity].
  destruct (String.eqb v ""); cbn [negb]; [reflexivity|].
  destruct (parse_duration w v); [reflexivity|].
  by rewrite <- app_assoc.
Qed.

Lemma managerOptions_run eo w tr :
  managerOptions eo w tr =
  if LeaderElection eo then
    match resolve w "LEADER_ELECTION_LEASE_DURATION" (15 * Second) with
    | None =>
        (Exited 1, tr ++ [EvLookupEnv "LEADER_ELECTION_LEASE_DURATION";
                          fatal_entry "parsing %s duration"])
    | Some lease =>
        match resolve w "LEADER_ELECTION_RENEW_DEADLINE" (10 * Second) with
        | None =>
            (Exited 1, tr ++ [EvLookupEnv "LEADER_ELECTION_LEASE_DURATION";
                              EvLookupEnv "LEADER_ELECTION_RENEW_DEADLINE";
                              fatal_entry "parsing %s duration"])
        | Some renew =>
            match resolve w "LEADER_ELECTION_RETRY_PERIOD" (5 * Second) with
            | None =>
                (Exited 1, tr ++ [EvLookupEnv "LEADER_ELECTION_LEASE_DURATION";
                                  EvLookupEnv "LEADER_ELECTION_RENEW_DEADLINE";
                                  EvLookupEnv "LEADER_ELECTION_RETRY_PERIOD";
                                  fatal_entry "parsing %s duration"])
            | Some retry =>
                (Returned (options_with eo (Some lease) (Some renew) (Some retry)),
                 tr ++ [EvLookupEnv "LEADER_ELECTION_LEASE_DURATION";
                        EvLookupEnv "LEADER_ELECTION_RENEW_DEADLINE";
                        EvLookupEnv "LEADER_ELECTION_RETRY_PERIOD"])
            end
        end
    end
  else (Returned (options_with eo None None None), tr).
Proof.
  unfold managerOptions, options_with.
  destruct (LeaderElection eo).
  - rewrite bind_run, lookupEnvDurationOr_run.
    destruct (resolve w "LEADER_ELECTION_LEASE_DURATION" _); [|done].
    rewrite bind_run, lookupEnvDurationOr_run.
    destruct (resolve w "LEADER_ELECTION_RENEW_DEADLINE" _);
      [|by rewrite <- app_assoc].
    rewrite bind_run, lookupEnvDurationOr_run.
    destruct (resolve w "LEADER_ELECTION_RETRY_PERIOD" _);
      rewrite <- !app_assoc; [|done].
    by destruct (Namespaced eo).
  - by destruct (Namespaced eo).
Qed.

Lemma loadGlobalConfig_run w tr :
  loadGlobalConfig w tr =
  let config := loaded_config w in
  match call_error w controllers_LoadConfig with
  | Some _ =>
      (Exited 1, tr ++ [EvCall controllers_LoadConfig;
                        fatal_entry "Failed to load global configuration file"])
  | None =>
      match call_error w (controllers_ValidateConfig config) with
      | Some _ =>
          (Exited 1, tr ++ [EvCall controllers_LoadConfig;
                            EvCall (controllers_ValidateConfig config);
                            fatal_entry "Global configuration file validation failed"])
      | None =>
          (Returned config, tr ++ [EvCall controllers_LoadConfig;
                                   EvCall (controllers_ValidateConfig config)])
      end
  end.
Proof.
  unfold loadGlobalConfig, LoadConfig. proc_unfold.
  destruct (call_error w controllers_LoadConfig);
    [by rewrite <- app_assoc|].
  destruct (call_error w (controllers_ValidateConfig _));
    by rewrite <- !app_assoc.
Qed.

Lemma lookupImageName_run w tr :
  lookupImageName w tr =
  match environ w !! imageEnvVar with
  | Some imageName => (Returned imageName, tr ++ [EvLookupEnv imageEnvVar])
  | None => (Exited 1, tr ++ [EvLookupEnv imageEnvVar; image_missing_entry])
  end.
Proof.
  unfold lookupImageName, os_LookupEnv. proc_unfold.
  destruct (environ w !! imageEnvVar); cbn [negb]; [done|].
  by rewrite <- app_assoc.
Qed.

(** ** Runs of step lists *)

Lemma run_steps_run steps w tr :
  run_steps steps w tr =
  ((steps_result w steps).1, tr ++ (steps_result w steps).2).
Proof.
  revert tr. induction steps as [|[c h|msg] rest IH]; intros tr.
  - cbn. by rewrite app_nil_r.
  - cbn [run_steps steps_result]. rewrite bind_run. unfold call at 1.
    destruct (call_error w c) as [e|].
    + destruct h; proc_unfold; cbn; by rewrite <- ?app_assoc.
    + rewrite bind_run. cbn [mret Proc_ret]. rewrite IH.
      destruct (steps_result w rest) as [o t]. cbn.
      by rewrite <- app_assoc.
  - cbn [run_steps steps_result]. rewrite bind_run. unfold Infow, emit.
    rewrite IH. destruct (steps_result w rest) as [o t]. cbn.
    by rewrite <- app_assoc.
Qed.

Lemma react_result_calls h e : calls (@react_result Config h e).2 = [].
Proof. by destruct h. Qed.

Lemma react_result_lookups h e : lookups (@react_result Config h e).2 = [].
Proof. by destruct h. Qed.

Lemma react_result_outcome h e :
  (@react_result Config h e).1 = Exited 1 ∨
  (h = PanicErr ∧ (@react_result Config h e).1 = Panicked e).
Proof. destruct h; cbn; auto. Qed.

(** The calls made are an initial part of the calls listed. *)
Lemma steps_result_prefix w steps :
  calls (steps_result w steps).2 `prefix_of` omap step_call steps.
Proof.
  induction steps as [|[c h|msg] rest IH]; cbn.
  - done.
  - destruct (call_error w c) as [e|].
    + pose proof (react_result_calls h e) as Hr.
      destruct (react_result h e) as [o t]. cbn in *. unfold calls in *. cbn.
      rewrite Hr. apply prefix_cons, prefix_nil.
    + destruct (steps_result w rest) as [o t]. cbn in *.
      by apply prefix_cons.
  - destruct (steps_result w rest) as [o t]. done.
Qed.

(** A run that returns made every call listed, and none failed. *)
Lemma steps_result_returned w steps :
  (steps_result w steps).1 = Returned tt →
  calls (steps_result w steps).2 = omap step_call steps ∧
  Forall (fun c => call_error w c = None) (omap step_call steps).
Proof.
  induction steps as [|[c h|msg] rest IH]; cbn.
  - done.
  - destruct (call_error w c) as [e|] eqn:Hc.
    + destruct h; cbn; discriminate.
    + destruct (steps_result w rest) as [o t]. cbn in *. intros Ho.
      destruct (IH Ho) as [-> ?]. split; [done|by constructor].
  - destruct (steps_result w rest) as [o t]. cbn in *. done.
Qed.

(** Conversely, when no listed call fails the run returns. *)
Lemma steps_result_all_ok w steps :
  Forall (fun c => call_error w c = None) (omap step_call steps) →
  (steps_result w steps).1 = Returned tt.
Proof.
  induction steps as [|[c h|msg] rest IH]; cbn.
  - done.
  - intros [Hc Hrest]%Forall_cons. rewrite Hc.
    destruct (steps_result w rest) as [o t]. cbn in *. auto.
  - intros Hrest. destruct (steps_result w rest) as [o t]. cbn in *. auto.
Qed.

(** A run of steps consults no environment variable. *)
Lemma steps_result_lookups w steps : lookups (steps_result w steps).2 = [].
Proof.
  induction steps as [|[c h|msg] rest IH]; cbn.
  - done.
  - destruct (call_error w c) as [e|].
    + pose proof (react_result_lookups h e).
      by destruct (react_result h e).
    + by destruct (steps_result w rest).
  - by destruct (steps_result w rest).
Qed.

(** A failing call ends the run: no call and no lookup follows it, and
    the process exits with status 1, or panics where the step's reaction
    is a panic. *)
Lemma steps_result_halts w steps pre e post :
  (steps_result w steps).2 = pre ++ e :: post →
  step_failed w e →
  calls post = [] ∧ lookups post = [] ∧
  ((steps_result w steps).1 = Exited 1 ∨
   ∃ c err, e = EvCall c ∧ StepCall c PanicErr ∈ steps ∧
            (steps_result w steps).1 = Panicked err).
Proof.
  revert pre. induction steps as [|[c' h|msg] rest IH]; intros pre; cbn.
  - by destruct pre.
  - destruct (call_error w c') as [err|] eqn:Hc'.
    + destruct pre as [|e0 pre]; cbn.
      * destruct h; cbn; intros [= <- <-] _; (split; [done|split; [done|]]).
        1,2: by left.
        right. exists c', err. split; [done|split; [left|done]].
      * destruct h; cbn; intros [= <- Heq] Hf.
        all: destruct pre as [|? [|? ?]]; simplify_eq/=; done.
    + destruct (steps_result w rest) as [o t]. cbn in *.
      destruct pre as [|e0 pre]; cbn.
      * intros [= <- _] [? Hf]. congruence.
      * intros [= <- Heq] Hf.
        destruct (IH pre Heq Hf) as (? & ? & Ho). split; [done|split; [done|]].
        destruct Ho as [?|(c & e' & ? & ? & ?)]; [by left|].
        right. exists c, e'. split; [done|split; [by right|done]].
  - destruct (steps_result w rest) as [o t]. cbn in *.
    destruct pre as [|e0 pre]; cbn.
    + by intros [= <- _] ?.
    + intros [= <- Heq] Hf.
      destruct (IH pre Heq Hf) as (? & ? & Ho). split; [done|split; [done|]].
      destruct Ho as [?|(c & e' & ? & ? & ?)]; [by left|].
      right. exists c, e'. split; [done|split; [by right|done]].
Qed.

(** ** The run of [Start] *)

Lemma stops_at_failure_nil w : stops_at_failure w [].
Proof. intros [|??] ???; done. Qed.

Lemma stops_at_failure_one w c : stops_at_failure w [c].
Proof.
  intros pre c' post Heq _.
  destruct pre as [|? [|??]]; cbn in Heq; by simplify_eq.
Qed.

Lemma stops_at_failure_cons w c l :
  call_error w c = None → stops_at_failure w l → stops_at_failure w (c :: l).
Proof.
  intros Hc Hl [|c0 pre] c' post Heq Hf; cbn in Heq; simplify_eq.
  - destruct Hf as [? Hf]. congruence.
  - by eapply Hl.
Qed.

Lemma Start_run eo w : Start_spec eo w (Start eo w []).
Proof.
  rewrite Start_steps, bind_run. unfold prelude.
  rewrite bind_run, loadGlobalConfig_run. cbn zeta.
  destruct (call_error w controllers_LoadConfig) eqn:Hload.
  { apply Start_aborted, abort_load. by eexists. }
  destruct (call_error w (controllers_ValidateConfig _)) eqn:Hvalid.
  { apply Start_aborted, abort_validate; [done|by eexists]. }
  rewrite bind_run, lookupImageName_run.
  destruct (environ w !! imageEnvVar) as [imageName|] eqn:Himage.
  2:{ by apply Start_aborted, abort_image. }
  rewrite bind_run, managerOptions_run.
  destruct (LeaderElection eo) eqn:Hle.
  2:{ cbn [mret Proc_ret]. rewrite run_steps_run.
      pose proof (Start_bootstrapped eo w imageName None None None) as H.
      unfold prelude_events in H. rewrite Hle in H. by apply H. }
  destruct (resolve w "LEADER_ELECTION_LEASE_DURATION" _) as [lease|] eqn:H1.
  2:{ apply Start_aborted, (abort_duration eo w 0); eauto with lia. }
  destruct (resolve w "LEADER_ELECTION_RENEW_DEADLINE" _) as [renew|] eqn:H2.
  2:{ apply Start_aborted, (abort_duration eo w 1); eauto with lia. }
  destruct (resolve w "LEADER_ELECTION_RETRY_PERIOD" _) as [retry|] eqn:H3.
  2:{ apply Start_aborted, (abort_duration eo w 2); eauto with lia. }
  cbn [mret Proc_ret]. rewrite run_steps_run.
  pose proof (Start_bootstrapped eo w imageName
                (Some lease) (Some renew) (Some retry)) as H.
  unfold prelude_events in H. rewrite Hle, H1, H2, H3 in H.
  apply H; eauto 10.
Qed.

(** An aborted prelude made at most the two configuration calls, the
    failing one last. *)
Lemma abort_spec_calls eo w t :
  abort_spec eo w t →
  calls t `prefix_of`
    [controllers_LoadConfig; controllers_ValidateConfig (loaded_config w)] ∧
  stops_at_failure w (calls t).
Proof.
  intros [Hl|Hl Hv|Hl Hv Hi|n Hl Hv Hi Hle Hn].
  - split; [by apply prefix_cons, prefix_nil|apply stops_at_failure_one].
  - split; [done|]. by apply stops_at_failure_cons, stops_at_failure_one.
  - split; [done|].
    by apply stops_at_failure_cons, stops_at_failure_cons, stops_at_failure_nil.
  - assert (calls ([EvCall controllers_LoadConfig;
                    EvCall (controllers_ValidateConfig (loaded_config w));
                    EvLookupEnv imageEnvVar] ++
                   (EvLookupEnv <$> take (S n) leader_keys) ++
                   [fatal_entry "parsing %s duration"]) =
            [controllers_LoadConfig;
             controllers_ValidateConfig (loaded_config w)]) as ->.
    { destruct n as [|[|[|n]]]; [done..|lia]. }
    split; [done|].
    by apply stops_at_failure_cons, stops_at_failure_cons, stops_at_failure_nil.
Qed.

Lemma prelude_events_calls eo w :
  calls (prelude_events eo w) =
  [controllers_LoadConfig; controllers_ValidateConfig (loaded_config w)].
Proof. unfold prelude_events. by destruct (LeaderElection eo). Qed.

Lemma prelude_events_lookups eo w :
  lookups (prelude_events eo w) =
  imageEnvVar :: (if LeaderElection eo then leader_keys else []).
Proof. unfold prelude_events. by destruct (LeaderElection eo). Qed.

Lemma calls_app tr1 tr2 : calls (tr1 ++ tr2) = calls tr1 ++ calls tr2.
Proof. apply omap_app. Qed.

Lemma lookups_app tr1 tr2 : lookups (tr1 ++ tr2) = lookups tr1 ++ lookups tr2.
Proof. apply omap_app. Qed.

(** The calls of any run are an initial part of [bootstrap_calls], in that
    order; a run that returns made them all. *)
Lemma Start_calls eo w :
  ∃ imageName lease renew retry,
    let opts := options_with eo lease renew retry in
    let made := calls (trace_of (Start eo w [])) in
    made `prefix_of` bootstrap_calls (loaded_config w) imageName opts ∧
    (environ w !! imageEnvVar = Some imageName ∨
     made `prefix_of`
       [controllers_LoadConfig; controllers_ValidateConfig (loaded_config w)]) ∧
    (LeaderElection eo = false → lease = None ∧ renew = None ∧ retry = None) ∧
    (outcome_of (Start eo w []) = Returned tt →
     made = bootstrap_calls (loaded_config w) imageName opts).
Proof.
  destruct (Start_run eo w)
    as [t Habort|imageName lease renew retry Hl Hv Hi Hd opts r].
  - exists "", None, None, None. cbn zeta. unfold trace_of, outcome_of. cbn.
    apply abort_spec_calls in Habort as [Hpre _].
    split; [|split; [by right|split; [done|done]]].
    etrans; [exact Hpre|]. by exists (omap step_call (bootstrap_steps (loaded_config w) "" (options_with eo None None None))).
  - exists imageName, lease, renew, retry. cbn zeta.
    unfold trace_of, outcome_of. cbn [fst snd].
    rewrite calls_app, prelude_events_calls. fold opts.
    split; [|split; [by left|split]].
    + apply (prefix_app [_; _]), steps_result_prefix.
    + intros Hle. rewrite Hle in Hd. exact Hd.
    + intros Hret. subst r. apply steps_result_returned in Hret as [-> _]. done.
Qed.

Lemma prefix_two {A} (l : list A) a b :
  l `prefix_of` [a; b] → l = [] ∨ l = [a] ∨ l = [a; b].
Proof.
  intros [k Hk]. destruct l as [|x [|y [|z l]]]; simplify_eq/=; auto.
Qed.

Lemma omap_prefix {A B} (f : A → option B) (l1 l2 : list A) :
  l1 `prefix_of` l2 → omap f l1 `prefix_of` omap f l2.
Proof. intros [k ->]. rewrite omap_app. by eexists. Qed.

Lemma Forall_prefix {A} (P : A → Prop) (l1 l2 : list A) :
  l1 `prefix_of` l2 → Forall P l2 → Forall P l1.
Proof. intros [k ->]. by intros [? _]%Forall_app. Qed.

(** The watches of a whole bootstrap are the rows of the wiring table. *)
Lemma bootstrap_calls_watches eo (config : Config) imageName lease renew retry :
  omap call_watch
       (bootstrap_calls config imageName (options_with eo lease renew retry)) =
  spec_wiring (managed_cache eo).
Proof. reflexivity. Qed.

Lemma bootstrap_calls_manager_options eo (config : Config) imageName lease renew retry :
  omap call_manager_options
       (bootstrap_calls config imageName (options_with eo lease renew retry)) =
  [options_with eo lease renew retry].
Proof. reflexivity. Qed.

(** The watches of any run are an initial part of the wiring table. *)
Lemma Start_watches eo w :
  watches (trace_of (Start eo w [])) `prefix_of` spec_wiring (managed_cache eo) ∧
  (outcome_of (Start eo w []) = Returned tt →
   watches (trace_of (Start eo w [])) = spec_wiring (managed_cache eo)).
Proof.
  destruct (Start_calls eo w) as (imageName & lease & renew & retry & H).
  cbn zeta in H. destruct H as (Hpre & _ & _ & Hret).
  unfold watches. split.
  - rewrite <- (bootstrap_calls_watches eo (loaded_config w) imageName lease renew retry).
    by apply omap_prefix.
  - intros Ho. by rewrite (Hret Ho).
Qed.

(** The environment variables a run consults: the image variable, then
    the leader-election variables when leader election is on. *)
Lemma Start_lookups eo w :
  lookups (trace_of (Start eo w [])) `prefix_of`
    imageEnvVar :: (if LeaderElection eo then leader_keys else []).
Proof.
  destruct (Start_run eo w)
    as [t Habort|imageName lease renew retry Hl Hv Hi Hd opts r];
    unfold trace_of; cbn [snd].
  - destruct Habort as [Hl|Hl Hv|Hl Hv Hi|n Hl Hv Hi Hle Hn]; cbn.
    1,2: apply prefix_nil.
    + by apply prefix_cons, prefix_nil.
    + rewrite Hle. apply prefix_cons.
      destruct n as [|[|[|n]]]; [..|lia]; cbn.
      * by apply prefix_cons, prefix_nil.
      * by do 2 apply prefix_cons; apply prefix_nil.
      * done.
  - rewrite lookups_app, prelude_events_lookups.
    subst r. by rewrite steps_result_lookups, app_nil_r.
Qed.

Lemma bootstrap_calls_NoDup (config : Config) imageName opts :
  NoDup (bootstrap_calls config imageName opts).
Proof.
  unfold bootstrap_calls, bootstrap_steps. cbn [omap list_omap step_call].
  repeat (apply NoDup_cons_2;
          [rewrite ?not_elem_of_cons;
           repeat split; first [discriminate|apply not_elem_of_nil]|]).
  apply NoDup_nil_2.
Qed.

Lemma bootstrap_calls_phases (config : Config) imageName opts :
  call_phase <$> bootstrap_calls config imageName opts = spec_phases.
Proof. reflexivity. Qed.

Lemma prefix_NoDup {A} (l1 l2 : list A) :
  l1 `prefix_of` l2 → NoDup l2 → NoDup l1.
Proof. intros [k ->]. by intros [? _]%NoDup_app. Qed.

Lemma cons_eq_split {A} (x : A) l pre e post :
  x :: l = pre ++ e :: post →
  (pre = [] ∧ e = x ∧ post = l) ∨ ∃ pre', pre = x :: pre' ∧ l = pre' ++ e :: post.
Proof. destruct pre as [|y pre]; intros [= -> ->]; eauto. Qed.

Lemma nil_eq_split {A} (pre : list A) e post : [] = pre ++ e :: post → False.
Proof. by destruct pre. Qed.

(** Every way of cutting a literal trace [H : [e1; ...; en] = pre ++ e :: post]. *)
Ltac split_trace H :=
  repeat first
    [ apply cons_eq_split in H as [(-> & -> & ->)|(? & -> & H)]
    | by apply nil_eq_split in H ].

(** In any run, a failed step is the last step: after it come neither
    calls nor lookups, and the process does not return. *)
Lemma Start_halts eo w pre e post :
  trace_of (Start eo w []) = pre ++ e :: post →
  step_failed w e →
  calls post = [] ∧ lookups post = [] ∧
  (outcome_of (Start eo w []) = Exited 1 ∨
   ∃ err, e = EvCall kubernetes_NewForConfigOrDie ∧
          outcome_of (Start eo w []) = Panicked err).
Proof.
  destruct (Start_run eo w)
    as [t Habort|imageName lease renew retry Hl Hv Hi Hd opts r];
    unfold trace_of, outcome_of; cbn [fst snd]; intros Heq Hf.
  - assert (calls post = [] ∧ lookups post = []) as [??]; [|by auto].
    destruct Habort as [Hl|Hl Hv|Hl Hv Hi|n Hl Hv [? Hi] Hle Hn].
    4: destruct n as [|[|[|n]]]; [..|lia].
    all: cbn in Heq; split_trace Heq.
    all: cbn in Hf; try done.
    all: try (destruct Hf as [? Hf]; congruence).
    all: try (destruct Hf as [Hf _]; discriminate Hf).
  - assert (∃ pre', (steps_result w (bootstrap_steps (loaded_config w) imageName opts)).2
                    = pre' ++ e :: post) as [pre' Hk].
    { apply app_eq_inv in Heq as [(k & Hk & Hpost)|(k & -> & Hk)]; [|by eauto].
      destruct k as [|e' k]; cbn in Hpost; [exists []; by rewrite Hpost|].
      exfalso. injection Hpost as <- ->.
      unfold prelude_events in Hk.
      destruct (LeaderElection eo); cbn in Hk.
      all: split_trace Hk.
      all: cbn in Hf.
      all: try (destruct Hf as [? Hf]; congruence).
      all: try (destruct Hf as [Hf _]; discriminate Hf). }
    destruct (steps_result_halts _ _ _ _ _ Hk Hf) as (? & ? & Ho).
    split; [done|split; [done|]].
    destruct Ho as [?|(c & err & -> & Hin & ?)]; [by left|].
    right. exists err. split; [|done]. f_equal.
    unfold bootstrap_steps in Hin.
    repeat (apply elem_of_cons in Hin as [Hin|Hin]; [by simplify_eq|]).
      by apply elem_of_nil in Hin.
Qed.

(** ** Computations that cannot tell two worlds apart *)

Section Respects.

Variable R : @World Config → @World Config → Prop.

Lemma respects_ret {A} (a : A) : respects R (mret a).
Proof. by intros ???. Qed.

Lemma respects_bind {A B} (m : Proc A) (k : A → Proc B) :
  respects R m → (∀ a, respects R (k a)) → respects R (m ≫= k).
Proof.
  intros Hm Hk w1 w2 tr HR. rewrite !bind_run, (Hm w1 w2 tr HR).
  destruct (m w2 tr) as [[a|c|e] tr']; [by apply Hk|done..].
Qed.

Lemma respects_when (b : bool) (m : Proc unit) :
  respects R m → respects R (when b m).
Proof. destruct b; [done|]. intros _. apply respects_ret. Qed.

Lemma respects_Fatalw msg : respects R (Fatalw msg).
Proof. by intros ???. Qed.

Lemma respects_Fatalf msg : respects R (Fatalf msg).
Proof. by intros ???. Qed.

Lemma respects_Infow msg : respects R (Infow msg).
Proof. by intros ???. Qed.

Lemma respects_os_Exit code : respects R (os_Exit code).
Proof. by intros ???. Qed.

Lemma respects_panic e : respects R (panic e).
Proof. by intros ???. Qed.

Hypothesis R_calls : ∀ w1 w2, R w1 w2 → ∀ c, call_error w1 c = call_error w2 c.
Hypothesis R_config : ∀ w1 w2, R w1 w2 → loaded_config w1 = loaded_config w2.

Lemma respects_call c : respects R (call c).
Proof. intros w1 w2 tr HR. unfold call. by rewrite (R_calls _ _ HR). Qed.

Lemma respects_LoadConfig : respects R LoadConfig.
Proof.
  intros w1 w2 tr HR. unfold LoadConfig.
  by rewrite (R_calls _ _ HR), (R_config _ _ HR).
Qed.

Lemma respects_os_LookupEnv key :
  (∀ w1 w2, R w1 w2 → environ w1 !! key = environ w2 !! key) →
  respects R (os_LookupEnv key).
Proof. intros Hkey w1 w2 tr HR. unfold os_LookupEnv. by rewrite (Hkey _ _ HR). Qed.

End Respects.

Ltac respects_step :=
  lazymatch goal with
  | |- respects _ (match ?x with _ => _ end) => destruct x
  | |- respects _ (mret _) => apply respects_ret
  | |- respects _ (Fatalw _) => apply respects_Fatalw
  | |- respects _ (Fatalf _) => apply respects_Fatalf
  | |- respects _ (Infow _) => apply respects_Infow
  | |- respects _ (os_Exit _) => apply respects_os_Exit
  | |- respects _ (panic _) => apply respects_panic
  | |- respects _ (when _ _) => apply respects_when
  | |- respects _ (call _) => apply respects_call; apply same_calls
  | |- respects _ LoadConfig =>
      apply respects_LoadConfig; [apply same_calls | apply same_config]
  | |- respects _ (_ ≫= _) => apply respects_bind; [|intros ?]
  end.

Lemma imageEnvVar_not_leader_key : imageEnvVar ∉ leader_keys.
Proof.
  unfold leader_keys, imageEnvVar. rewrite !not_elem_of_cons.
  repeat split; first [discriminate|apply not_elem_of_nil].
Qed.

(** With leader election off, [Start] cannot tell apart two worlds that
    differ only in the leader-election variables. *)
Lemma Start_respects eo :
  LeaderElection eo = false →
  respects (same_except leader_keys) (@Start Config eo).
Proof.
  intros Hle.
  assert (respects (same_except leader_keys) (@lookupImageName Config)) as Himage.
  { unfold lookupImageName.
    apply respects_bind; [|intros ?; repeat respects_step].
    apply respects_os_LookupEnv. intros w1 w2 H.
    apply H, imageEnvVar_not_leader_key. }
  assert (respects (same_except leader_keys) (@managerOptions Config eo)) as Hopts.
  { unfold managerOptions. rewrite Hle. apply respects_ret. }
  unfold Start.
  apply respects_bind; [unfold loadGlobalConfig; repeat respects_step|intros config].
  apply respects_bind; [exact Himage|intros imageName].
  apply respects_bind; [exact Hopts|intros opts].
  unfold newManager, addProbes, addSchemes, eventBusPipeline, eventSourcePipeline,
    sensorPipeline, runManager.
  repeat respects_step.
Qed.

(** ** Changing the image name *)

Lemma steps_result_with_env w key v steps :
  steps_result (with_env w key v) steps = steps_result w steps.
Proof.
  induction steps as [|[c h|msg] rest IH]; cbn; [done|..]; by rewrite IH.
Qed.

Lemma resolve_with_env w key key' v o :
  key ≠ key' → resolve (with_env w key v) key' o = resolve w key' o.
Proof. intros Hne. unfold resolve. cbn. by rewrite lookup_insert_ne. Qed.

Lemma managerOptions_with_image eo w v tr :
  managerOptions eo (with_env w imageEnvVar v) tr = managerOptions eo w tr.
Proof.
  rewrite !managerOptions_run, !resolve_with_env; [done|discriminate..].
Qed.

Lemma pipeline_app p tr1 tr2 :
  pipeline p (tr1 ++ tr2) = pipeline p tr1 ++ pipeline p tr2.
Proof. unfold pipeline. by rewrite calls_app, List.filter_app. Qed.

(** The EventBus part of a run of the steps does not depend on the image
    name the later steps carry. *)
Lemma bus_pipeline_frame w config i1 i2 opts :
  pipeline eventbus (steps_result w (bootstrap_steps config i1 opts)).2 =
  pipeline eventbus (steps_result w (bootstrap_steps config i2 opts)).2.
Proof.
  unfold bootstrap_steps. cbn [steps_result react_result].
  repeat (run_call w; try reflexivity).
Qed.

(** A run of [Start] with the image variable set to [v]. *)
Lemma Start_with_image eo w v :
  Start eo (with_env w imageEnvVar v) [] =
  match call_error w controllers_LoadConfig with
  | Some _ =>
      (Exited 1, [EvCall controllers_LoadConfig;
                  fatal_entry "Failed to load global configuration file"])
  | None =>
      match call_error w (controllers_ValidateConfig (loaded_config w)) with
      | Some _ =>
          (Exited 1, [EvCall controllers_LoadConfig;
                      EvCall (controllers_ValidateConfig (loaded_config w));
                      fatal_entry "Global configuration file validation failed"])
      | None =>
          match managerOptions eo w
                  [EvCall controllers_LoadConfig;
                   EvCall (controllers_ValidateConfig (loaded_config w));
                   EvLookupEnv imageEnvVar] with
          | (Returned opts, t) =>
              let r := steps_result w (bootstrap_steps (loaded_config w) v opts) in
              (r.1, t ++ r.2)
          | (Exited c, t) => (Exited c, t)
          | (Panicked e, t) => (Panicked e, t)
          end
      end
  end.
Proof.
  rewrite Start_steps, bind_run. unfold prelude.
  rewrite bind_run, loadGlobalConfig_run. cbn zeta.
  change (call_error (with_env w imageEnvVar v)) with (call_error w).
  change (loaded_config (with_env w imageEnvVar v)) with (loaded_config w).
  destruct (call_error w controllers_LoadConfig); [done|].
  destruct (call_error w (controllers_ValidateConfig _)); [done|].
  rewrite bind_run, lookupImageName_run.
  change (environ (with_env w imageEnvVar v)) with (<[imageEnvVar:=v]> (environ w)).
  rewrite lookup_insert_eq, bind_run, managerOptions_with_image.
  cbn [app].
  destruct (managerOptions eo w _) as [[opts|c|e] t]; [|done..].
  cbn [mret Proc_ret]. by rewrite run_steps_run, steps_result_with_env.
Qed.

(** ** What the registered watches do *)





Lemma predicate_Update_generation_or_label old new :
  predicate_Update (predicate_Or [GenerationChangedPredicate; LabelChangedPredicate])
                   old new = true ↔
  obj_generation new ≠ obj_generation old ∨ obj_labels new ≠ obj_labels old.
Proof.
  cbn [predicate_Update existsb]. rewrite orb_false_r, orb_true_iff.
  rewrite !negb_true_iff, bool_decide_eq_false, Z.eqb_neq. done.
Qed.

(** Every watch a run registers is a row of the wiring table. *)
Lemma Start_watch_in_table eo w reg :
  reg ∈ watches (trace_of (Start eo w [])) →
  reg ∈ spec_wiring (managed_cache eo).
Proof.
  intros Hin. destruct (Start_watches eo w) as [Hpre _].
  by eapply elem_of_prefix.
Qed.

End Proofs.

(** * Properties of the specification *)

Section Properties.

Context {Config : Type}.
Implicit Types (w : @World Config) (tr : list (@Event Config)).

(** C1 (as amended).  When the variable is set to a non-empty value that
    [time.ParseDuration] rejects, [lookupEnvDurationOr] writes a log entry
    at the fatal level and the process exits with status 1: no duration is
    returned, the fallback is not used, and nothing placed after the call
    runs. *)
Theorem lookupEnvDurationOr_malformed_exits key o w tr v :
  environ w !! key = Some v →
  v ≠ "" →
  parse_duration w v = None →
  lookupEnvDurationOr key o w tr =
    (Exited 1, tr ++ [EvLookupEnv key; EvLog FatalLevel "parsing %s duration"]) ∧
  ∀ B (k : Duration → Proc B),
    (lookupEnvDurationOr key o ≫= k) w tr =
      (Exited 1, tr ++ [EvLookupEnv key; EvLog FatalLevel "parsing %s duration"]).
Proof.
  intros Hv Hne Hparse.
  assert (resolve w key o = None) as Hres.
  { unfold resolve. rewrite Hv.
    destruct (String.eqb_spec v ""); [done|exact Hparse]. }
  split.
  - by rewrite lookupEnvDurationOr_run, Hres.
  - intros B k. by rewrite bind_run, lookupEnvDurationOr_run, Hres.
Qed.

(** C4.  If [ARGO_EVENTS_IMAGE] is unset, [Start] ends the process with
    status 1 having created no controller, registered no watch and asked
    for no manager; when the configuration loads and validates, the trace
    is exactly the two configuration calls, the lookup, and the fatal log
    entry. *)
Theorem Start_image_unset_aborts eo w :
  environ w !! imageEnvVar = None →
  let r := Start eo w [] in
  outcome_of r = Exited 1 ∧
  controllers (trace_of r) = [] ∧
  watches (trace_of r) = [] ∧
  manager_options (trace_of r) = [] ∧
  (call_error w controllers_LoadConfig = None →
   call_error w (controllers_ValidateConfig (loaded_config w)) = None →
   trace_of r = [EvCall controllers_LoadConfig;
                 EvCall (controllers_ValidateConfig (loaded_config w));
                 EvLookupEnv imageEnvVar;
                 image_missing_entry]).
Proof.
  intros Himage. cbn zeta.
  destruct (Start_run eo w) as [t Habort|]; [|congruence].
  unfold outcome_of, trace_of, controllers, watches, manager_options. cbn [fst snd].
  split; [done|].
  destruct (abort_spec_calls _ _ _ Habort) as [Hpre _].
  split; [|split; [|split]].
  1-3: by destruct (prefix_two _ _ _ Hpre) as [->|[->| ->]].
  intros Hload Hvalid.
  destruct Habort as [[? Hl]|_ [? Hv]|_ _ _|n _ _ [? Hi] _ _]; congruence.
Qed.

(** C6.  The watches [Start] registers are, in order, the rows of the
    wiring table and nothing else: any run registers an initial part of
    the table, a run that returns registers all of it.  Each registered
    watch enqueues keys of the kind its own controller reconciles, and
    only into that controller's queue. *)
Theorem watch_wiring_is_the_table eo w :
  let r := Start eo w [] in
  watches (trace_of r) `prefix_of` spec_wiring (managed_cache eo) ∧
  (outcome_of r = Returned tt →
   watches (trace_of r) = spec_wiring (managed_cache eo)) ∧
  Forall (fun reg =>
            routed_kind reg = primary_kind (reg_controller reg) ∧
            ∀ old new,
              Forall (fun q => q.1 = reg_controller reg) (on_update reg old new))
         (watches (trace_of r)).
Proof.
  cbn zeta. destruct (Start_watches eo w) as [Hpre Hret].
  split; [done|split; [done|]].
  eapply Forall_prefix; [exact Hpre|].
  repeat apply Forall_cons_2; try apply Forall_nil_2.
  all: split; [reflexivity|].
  all: intros old new; unfold on_update.
  all: destruct (predicate_Update _ old new); [|done].
  all: by apply Forall_fmap, Forall_true.
Qed.

(** C7.  Every manager [Start] asks for, and the cache behind every watch
    it registers, carries the same namespace restriction: with
    [Namespaced] it is the one-entry map for [ManagedNamespace], without
    it the map is empty (no restriction). *)
Theorem namespaced_cache_scope eo w :
  let r := Start eo w [] in
  let scope := cache_namespaces (managed_cache eo) in
  Forall (fun opts => Cache_DefaultNamespaces opts = scope)
         (manager_options (trace_of r)) ∧
  Forall (fun reg => cache_namespaces (src_cache (reg_source reg)) = scope)
         (watches (trace_of r)) ∧
  (outcome_of r = Returned tt →
   ∃ opts, manager_options (trace_of r) = [opts] ∧
           watches (trace_of r) = spec_wiring (managed_cache eo)) ∧
  (Namespaced eo = true →
   scope = {[ ManagedNamespace eo := cache_Config_empty ]} ∧
   dom scope = {[ ManagedNamespace eo ]} ∧
   ∀ ns, is_Some (scope !! ns) ↔ ns = ManagedNamespace eo) ∧
  (Namespaced eo = false → scope = ∅ ∧ dom scope = ∅).
Proof.
  cbn zeta. destruct (Start_watches eo w) as [Hpre Hret].
  destruct (Start_calls eo w) as (imageName & lease & renew & retry & H).
  cbn zeta in H. destruct H as (Hcalls & _ & _ & Hall).
  split; [|split; [|split; [|split]]].
  - unfold manager_options.
    eapply Forall_prefix; [by apply omap_prefix|].
    rewrite bootstrap_calls_manager_options. by repeat constructor.
  - eapply Forall_prefix; [exact Hpre|].
    by repeat constructor.
  - intros Ho. exists (options_with eo lease renew retry).
    split; [|by apply Hret].
    unfold manager_options. by rewrite (Hall Ho).
  - intros Hns. unfold managed_cache. cbn. rewrite Hns.
    split; [done|split].
    + by rewrite dom_singleton_L.
    + intros ns. rewrite lookup_singleton_is_Some. naive_solver.
  - intros Hns. unfold managed_cache. cbn. rewrite Hns.
    split; [done|]. by rewrite dom_empty_L.
Qed.

(** C8.  The bootstrap runs its steps in the order of the specification
    and stops at the first that fails.  The calls of any run are an
    initial part of the full sequence, whose phases are config load,
    config validation, manager construction, probes, schemes, and each
    controller's build and watches; no call and no lookup is made twice;
    a failed step (a call that returns an error, or the image variable
    found unset) is followed by no call and no lookup, and the process
    exits with status 1 (it panics if the failure is that of the kube
    client constructor); a run that returns made every call without
    error. *)
Theorem bootstrap_all_or_nothing eo w :
  let r := Start eo w [] in
  (∃ imageName opts,
     calls (trace_of r) `prefix_of`
       bootstrap_calls (loaded_config w) imageName opts ∧
     call_phase <$> bootstrap_calls (loaded_config w) imageName opts = spec_phases ∧
     (outcome_of r = Returned tt →
      calls (trace_of r) = bootstrap_calls (loaded_config w) imageName opts ∧
      Forall (fun c => call_error w c = None) (calls (trace_of r)))) ∧
  NoDup (calls (trace_of r)) ∧
  NoDup (lookups (trace_of r)) ∧
  (∀ pre e post,
     trace_of r = pre ++ e :: post →
     step_failed w e →
     calls post = [] ∧ lookups post = [] ∧
     outcome_of r ≠ Returned tt ∧
     (e ≠ EvCall kubernetes_NewForConfigOrDie →
      outcome_of r = Exited 1 ∧ (1 ≠ 0)%Z)).
Proof.
  cbn zeta.
  destruct (Start_calls eo w) as (imageName & lease & renew & retry & H).
  cbn zeta in H. destruct H as (Hpre & _ & _ & Hret).
  split; [|split; [|split]].
  - exists imageName, (options_with eo lease renew retry).
    split; [done|split; [reflexivity|]].
    intros Ho. split; [by apply Hret|].
    apply Forall_forall. intros c Hc.
    destruct (call_error w c) as [err|] eqn:Herr; [|done].
    apply list_elem_of_omap in Hc as ([|l msg|c'] & He & [=]); subst c'.
    apply list_elem_of_split in He as (pre & post & Htr).
    destruct (Start_halts eo w pre (EvCall c) post Htr) as (_ & _ & Hout).
    { by eexists. }
    rewrite Ho in Hout. by destruct Hout as [?|(? & _ & ?)].
  - eapply prefix_NoDup; [exact Hpre|apply bootstrap_calls_NoDup].
  - eapply prefix_NoDup; [apply Start_lookups|].
    unfold leader_keys, imageEnvVar.
    destruct (LeaderElection eo);
      repeat (apply NoDup_cons_2;
              [rewrite ?not_elem_of_cons;
               repeat split; first [discriminate|apply not_elem_of_nil]|]);
      apply NoDup_nil_2.
  - intros pre e post Htr Hf.
    destruct (Start_halts eo w pre e post Htr Hf) as (? & ? & Ho).
    split; [done|split; [done|split]].
    + by destruct Ho as [->|(? & _ & ->)].
    + intros Hne. split; [|done].
      by destruct Ho as [->|(? & -> & _)].
Qed.

(** C9.  With [LeaderElection] false, two runs of [Start] in worlds that
    differ only in the values of the three leader-election variables give
    the same outcome and the same trace; the run consults none of the
    three variables; and the manager options it passes have leader
    election off, no election id and no durations. *)
Theorem leader_election_off_ignores_durations eo w1 w2 :
  LeaderElection eo = false →
  same_except leader_keys w1 w2 →
  Start eo w1 [] = Start eo w2 [] ∧
  Forall (fun k => k ∉ leader_keys) (lookups (trace_of (Start eo w1 []))) ∧
  Forall (fun opts =>
            opt_LeaderElection opts = false ∧
            LeaderElectionID opts = "" ∧
            LeaseDuration opts = None ∧
            RenewDeadline opts = None ∧
            RetryPeriod opts = None)
         (manager_options (trace_of (Start eo w1 []))).
Proof.
  intros Hle Hsame. split; [|split].
  - by apply Start_respects.
  - pose proof (Start_lookups eo w1) as Hlook. rewrite Hle in Hlook.
    eapply Forall_prefix; [exact Hlook|].
    apply Forall_cons_2; [|apply Forall_nil_2].
    apply imageEnvVar_not_leader_key.
  - destruct (Start_calls eo w1) as (imageName & lease & renew & retry & H).
    cbn zeta in H. destruct H as (Hpre & _ & Hnone & _).
    destruct (Hnone Hle) as (-> & -> & ->).
    unfold manager_options.
    eapply Forall_prefix; [by apply omap_prefix|].
    rewrite bootstrap_calls_manager_options.
    apply Forall_cons_2; [|apply Forall_nil_2].
    cbn. by rewrite Hle.
Qed.

(** C10.  The value of [ARGO_EVENTS_IMAGE] reaches only the EventSource
    and Sensor reconciler constructors.  Any call of a run that receives
    an image name is one of those two, with the variable's value; the
    EventBus reconciler is built from the client, the kube client, the
    scheme, the configuration and the logger; and whatever value the
    variable is set to, the EventBus controller is built and its watches
    registered by the same calls with the same arguments. *)
Theorem image_reaches_only_source_and_sensor eo w :
  let tr := trace_of (Start eo w []) in
  (∀ c image,
     c ∈ calls tr → image ∈ call_images c →
     environ w !! imageEnvVar = Some image ∧
     (c = controller_New eventsource (image_reconciler eventsource image) ∨
      c = controller_New sensor (image_reconciler sensor image))) ∧
  (∀ p r,
     controller_New p r ∈ calls tr →
     match p with
     | eventbus => r = eventbus_reconciler (loaded_config w)
     | _ => ∃ image,
              environ w !! imageEnvVar = Some image ∧ r = image_reconciler p image
     end) ∧
  (∀ v1 v2,
     pipeline eventbus (trace_of (Start eo (with_env w imageEnvVar v1) [])) =
     pipeline eventbus (trace_of (Start eo (with_env w imageEnvVar v2) []))).
Proof.
  cbn zeta.
  destruct (Start_calls eo w) as (imageName & lease & renew & retry & H).
  cbn zeta in H. destruct H as (Hpre & Himage & _ & _).
  split; [|split].
  - intros c image Hc Himg.
    destruct Himage as [Himage|Hshort].
    + pose proof (elem_of_prefix _ _ _ Hc Hpre) as Hin.
      unfold bootstrap_calls, bootstrap_steps in Hin. cbn [omap list_omap step_call] in Hin.
      repeat (apply elem_of_cons in Hin as [->|Hin];
              [cbn in Himg; try (by apply elem_of_nil in Himg)|]).
      3: by apply elem_of_nil in Hin.
      all: apply list_elem_of_singleton in Himg as ->; auto.
    + pose proof (elem_of_prefix _ _ _ Hc Hshort) as Hin.
      repeat (apply elem_of_cons in Hin as [->|Hin];
              [by apply elem_of_nil in Himg|]).
      by apply elem_of_nil in Hin.
  - intros p r Hc.
    destruct Himage as [Himage|Hshort].
    + pose proof (elem_of_prefix _ _ _ Hc Hpre) as Hin.
      unfold bootstrap_calls, bootstrap_steps in Hin. cbn [omap list_omap step_call] in Hin.
      repeat (apply elem_of_cons in Hin as [Heq|Hin];
              [first [discriminate Heq
                     |injection Heq as -> ->; cbn; by eauto]|]).
      by apply elem_of_nil in Hin.
    + pose proof (elem_of_prefix _ _ _ Hc Hshort) as Hin.
      repeat (apply elem_of_cons in Hin as [Heq|Hin]; [discriminate Heq|]).
      by apply elem_of_nil in Hin.
  - intros v1 v2. rewrite !Start_with_image.
    destruct (call_error w controllers_LoadConfig); [done|].
    destruct (call_error w (controllers_ValidateConfig _)); [done|].
    destruct (managerOptions eo w _) as [[opts|c|e] t]; [|done..].
    unfold trace_of. cbn [snd]. rewrite !pipeline_app. f_equal.
    apply bus_pipeline_frame.
Qed.

(** C3.  A watch [Start] registers on EventBus, EventSource or Sensor is
    on the kind its controller reconciles, has the predicate
    generation-changed OR label-changed, and enqueues the object itself.
    An update that changes neither generation nor labels (a status-only
    update) enqueues nothing; an update that changes the generation or the
    labels enqueues exactly one request, the object's own namespaced name,
    for that controller. *)
Theorem primary_watch_behaviour eo w reg :
  reg ∈ watches (trace_of (Start eo w [])) →
  is_primary (src_kind (reg_source reg)) = true →
  reg_predicate reg =
    predicate_Or [GenerationChangedPredicate; LabelChangedPredicate] ∧
  reg_handler reg = EnqueueRequestForObject ∧
  src_kind (reg_source reg) = primary_kind (reg_controller reg) ∧
  ∀ old new,
    (obj_generation new = obj_generation old →
     obj_labels new = obj_labels old →
     on_update reg old new = []) ∧
    (obj_generation new ≠ obj_generation old ∨ obj_labels new ≠ obj_labels old →
     on_update reg old new = [(reg_controller reg, object_key new)]).
Proof.
  intros Hin%Start_watch_in_table Hprim.
  assert (∃ c, reg = primary_watch c (managed_cache eo)) as [c ->].
  { unfold spec_wiring in Hin.
    repeat (apply elem_of_cons in Hin as [->|Hin];
            [first [discriminate Hprim|by eexists]|]).
    by apply elem_of_nil in Hin. }
  split; [done|split; [done|split; [done|]]].
  intros old new. unfold on_update. cbn [primary_watch reg_predicate reg_handler
                                         reg_controller handler_Update].
  pose proof (predicate_Update_generation_or_label old new) as Hp.
  destruct (predicate_Update _ old new).
  - split; [|done]. intros Hg Hl.
    destruct (proj1 Hp eq_refl); done.
  - split; [done|]. intros H. apply Hp in H. discriminate.
Qed.


End Properties.

(** With [LEADER_ELECTION_LEASE_DURATION=abc], [time.ParseDuration]
    rejects the value, [Fatalw] is called, the fallback is not returned,
    and [Start] with leader election on never asks for a manager. *)
Lemma lookupEnvDurationOr_malformed_counterexample :
  environ malformed_world !! "LEADER_ELECTION_LEASE_DURATION" = Some "abc" ∧
  parse_duration malformed_world "abc" = None ∧
  lookupEnvDurationOr "LEADER_ELECTION_LEASE_DURATION" (15 * Second)
      malformed_world [] =
    (Exited 1, [EvLookupEnv "LEADER_ELECTION_LEASE_DURATION";
                EvLog FatalLevel "parsing %s duration"]) ∧
  outcome_of (lookupEnvDurationOr "LEADER_ELECTION_LEASE_DURATION" (15 * Second)
                malformed_world []) ≠ Returned (15 * Second) ∧
  Start leader_opts malformed_world [] =
    (Exited 1, [EvCall controllers_LoadConfig;
                EvCall (controllers_ValidateConfig ());
                EvLookupEnv imageEnvVar;
                EvLookupEnv "LEADER_ELECTION_LEASE_DURATION";
                EvLog FatalLevel "parsing %s duration"]).
Proof. vm_compute. repeat split; congruence. Qed.

Lemma lookupEnvDurationOr_malformed_exits_witness :
  lookupEnvDurationOr "LEADER_ELECTION_LEASE_DURATION" (15 * Second)
      malformed_world [] =
    (Exited 1, [] ++ [EvLookupEnv "LEADER_ELECTION_LEASE_DURATION";
                      EvLog FatalLevel "parsing %s duration"]) ∧
  ∀ B (k : Duration → Proc B),
    (lookupEnvDurationOr "LEADER_ELECTION_LEASE_DURATION" (15 * Second) ≫= k)
        malformed_world [] =
      (Exited 1, [] ++ [EvLookupEnv "LEADER_ELECTION_LEASE_DURATION";
                        EvLog FatalLevel "parsing %s duration"]).
Proof.
  apply (lookupEnvDurationOr_malformed_exits
           "LEADER_ELECTION_LEASE_DURATION" (15 * Second) malformed_world [] "abc").
  - vm_compute. reflexivity.
  - discriminate.
  - vm_compute. reflexivity.
Defined.

(** ** Runs on the example worlds *)


Lemma primary_watch_behaviour_witness :
  let reg := primary_watch sensor (managed_cache plain_opts) in
  on_update reg (a_sensor 3 ∅ "") (a_sensor 3 ∅ "Ready") = [] ∧
  on_update reg (a_sensor 3 ∅ "") (a_sensor 4 ∅ "") =
    [ (sensor, {| Namespace := "argo-events"; Name := "webhook" |}) ] ∧
  on_update reg (a_sensor 3 ∅ "") (a_sensor 3 {[ "tier" := "edge" ]} "") =
    [ (sensor, {| Namespace := "argo-events"; Name := "webhook" |}) ].
Proof.
  intros reg.
  assert (reg ∈ watches (trace_of (Start plain_opts plain_world []))) as Hin.
  { vm_compute. do 7 apply list_elem_of_further. apply list_elem_of_here. }
  destruct (primary_watch_behaviour plain_opts plain_world reg Hin eq_refl)
    as (_ & _ & _ & Hupd).
  split; [|split].
  - apply (Hupd (a_sensor 3 ∅ "") (a_sensor 3 ∅ "Ready")); reflexivity.
  - apply (Hupd (a_sensor 3 ∅ "") (a_sensor 4 ∅ "")). left. discriminate.
  - apply (Hupd (a_sensor 3 ∅ "") (a_sensor 3 {[ "tier" := "edge" ]} "")).
    right. cbn. intros H.
    apply (f_equal (fun m : gmap string string => m !! "tier")) in H.
    rewrite lookup_singleton_eq, lookup_empty in H. discriminate.
Defined.

Lemma Start_image_unset_aborts_witness :
  Start plain_opts no_image_world [] =
    (Exited 1, [EvCall controllers_LoadConfig;
                EvCall (controllers_ValidateConfig ());
                EvLookupEnv imageEnvVar;
                image_missing_entry]) ∧
  watches (trace_of (Start plain_opts no_image_world [])) = [] ∧
  controllers (trace_of (Start plain_opts no_image_world [])) = [].
Proof.
  destruct (Start_image_unset_aborts plain_opts no_image_world)
    as (Hout & Hctl & Hw & _ & Htr).
  { vm_compute. reflexivity. }
  split; [|split; [exact Hw|exact Hctl]].
  specialize (Htr eq_refl eq_refl).
  destruct (Start plain_opts no_image_world []) as [o t].
  unfold outcome_of, trace_of in *. cbn in *. by subst.
Defined.

Lemma watch_wiring_is_the_table_witness :
  outcome_of (Start plain_opts plain_world []) = Returned tt ∧
  watches (trace_of (Start plain_opts plain_world [])) =
    spec_wiring (managed_cache plain_opts).
Proof.
  destruct (watch_wiring_is_the_table plain_opts plain_world) as (_ & Hret & _).
  assert (outcome_of (Start plain_opts plain_world []) = Returned tt) as Ho.
  { vm_compute. reflexivity. }
  split; [exact Ho|exact (Hret Ho)].
Defined.

Lemma namespaced_cache_scope_witness :
  dom (cache_namespaces (managed_cache namespaced_opts)) = {[ "ns-a" ]} ∧
  Forall (fun opts => Cache_DefaultNamespaces opts
                      = cache_namespaces (managed_cache namespaced_opts))
         (manager_options (trace_of (Start namespaced_opts plain_world []))) ∧
  length (manager_options (trace_of (Start namespaced_opts plain_world []))) = 1%nat ∧
  Forall (fun reg => cache_namespaces (src_cache (reg_source reg))
                     = cache_namespaces (managed_cache namespaced_opts))
         (watches (trace_of (Start namespaced_opts plain_world []))) ∧
  length (watches (trace_of (Start namespaced_opts plain_world []))) = 9%nat.
Proof.
  destruct (namespaced_cache_scope namespaced_opts plain_world)
    as (Hopts & Hwatches & Hret & Hns & _).
  destruct (Hns eq_refl) as (_ & Hdom & _).
  destruct Hret as (opts & Hlen & Hall); [vm_compute; reflexivity|].
  split; [exact Hdom|].
  split; [exact Hopts|].
  split; [by rewrite Hlen|].
  split; [exact Hwatches|].
  by rewrite Hall.
Defined.

Lemma bootstrap_all_or_nothing_witness :
  outcome_of (Start plain_opts broken_world []) = Exited 1 ∧
  watches (trace_of (Start plain_opts broken_world [])) =
    [ primary_watch eventbus (managed_cache plain_opts);
      secondary_watch eventbus (managed_cache plain_opts) ConfigMap;
      secondary_watch eventbus (managed_cache plain_opts) StatefulSet ] ∧
  controllers (trace_of (Start plain_opts broken_world [])) = [eventbus].
Proof.
  destruct (bootstrap_all_or_nothing plain_opts broken_world) as (_ & _ & _ & Hhalt).
  pose (failing := EvCall (Watch eventbus
                     (source_Kind (managed_cache plain_opts) StatefulSet)
                     (EnqueueRequestForOwner EventBus [OnlyControllerOwner])
                     GenerationChangedPredicate) : @Event unit).
  destruct (Hhalt (take 14 (trace_of (Start plain_opts broken_world [])))
                  failing
                  [fatal_entry "Unable to watch StatefulSets"])
    as (_ & _ & _ & Hexit).
  { vm_compute. reflexivity. }
  { vm_compute. eexists. reflexivity. }
  split; [apply Hexit; discriminate|].
  split; vm_compute; reflexivity.
Defined.

Lemma leader_election_off_ignores_durations_witness :
  Start plain_opts plain_world [] = Start plain_opts malformed_world [] ∧
  lookups (trace_of (Start plain_opts plain_world [])) = [imageEnvVar].
Proof.
  assert (same_except leader_keys plain_world malformed_world) as Hsame.
  { split; try reflexivity.
    intros k Hk. unfold plain_world, malformed_world, environ.
    destruct (decide (k = imageEnvVar)) as [->|Hne].
    - by rewrite lookup_insert_eq, lookup_singleton_eq.
    - rewrite lookup_insert_ne by congruence.
      rewrite lookup_singleton_ne by congruence.
      rewrite lookup_singleton_ne; [done|].
      intros <-. apply Hk. left. }
  destruct (leader_election_off_ignores_durations
              plain_opts plain_world malformed_world eq_refl Hsame)
    as (Heq & _ & _).
  split; [exact Heq|]. vm_compute. reflexivity.
Defined.

Lemma image_reaches_only_source_and_sensor_witness :
  pipeline eventbus (trace_of (Start plain_opts
                                 (with_env plain_world imageEnvVar "argo-events:v1") [])) =
  pipeline eventbus (trace_of (Start plain_opts
                                 (with_env plain_world imageEnvVar "argo-events:v2") [])) ∧
  length (pipeline eventbus
            (trace_of (Start plain_opts
                         (with_env plain_world imageEnvVar "argo-events:v1") []))) = 5%nat.
Proof.
  destruct (image_reaches_only_source_and_sensor plain_opts plain_world)
    as (_ & _ & Hframe).
  split; [apply Hframe|]. vm_compute. reflexivity.
Defined.

(** * Further properties of [lookupEnvDurationOr] and [Start] *)

(** Every way of cutting a literal list [H : [x1; ...; xn] = pre ++ e :: post],
    with [pre], [e] and [post] variables. *)
Ltac split_list H :=
  repeat first
    [ apply cons_eq_split in H as [(-> & -> & ->)|(? & -> & H)]
    | by apply nil_eq_split in H ].

(** The three values of an index into [leader_keys]. *)
Ltac leader_cases n Hn :=
  destruct n as [|[|[|n]]]; [..|by cbn in Hn].

Section Further.

Context {Config : Type}.
Implicit Types (w : @World Config) (tr : list (@Event Config)).

Lemma resolve_None w key o : resolve w key o = None ↔ malformed w key.
Proof.
  unfold resolve, malformed. split.
  - destruct (environ w !! key) as [v|]; [|done].
    destruct (String.eqb_spec v ""); [done|]. eauto.
  - intros (v & -> & Hne & Hparse).
    by destruct (String.eqb_spec v "").
Qed.

Lemma resolve_is_Some w key o : ¬ malformed w key → is_Some (resolve w key o).
Proof.
  intros Hm. destruct (resolve w key o) eqn:H; [by eexists|].
  by apply resolve_None in H.
Qed.

Lemma leader_keys_not_malformed w :
  Forall (fun k => ¬ malformed w k) leader_keys ↔
  is_Some (resolve w "LEADER_ELECTION_LEASE_DURATION" (15 * Second)) ∧
  is_Some (resolve w "LEADER_ELECTION_RENEW_DEADLINE" (10 * Second)) ∧
  is_Some (resolve w "LEADER_ELECTION_RETRY_PERIOD" (5 * Second)).
Proof.
  unfold leader_keys. rewrite !Forall_cons, <- !resolve_None.
  rewrite <- !not_eq_None_Some. split.
  - by intros (? & ? & ? & _).
  - by intros (? & ? & ?).
Qed.

(** Every run of [Start] has one of the five shapes. *)
Lemma Start_shape eo w : bootstrap_run eo w (Start eo w []).
Proof.
  rewrite Start_steps, bind_run. unfold prelude.
  rewrite bind_run, loadGlobalConfig_run. cbn zeta.
  destruct (call_error w controllers_LoadConfig) eqn:Hload.
  { apply run_load_failed. by eexists. }
  destruct (call_error w (controllers_ValidateConfig _)) eqn:Hvalid.
  { apply run_validate_failed; [done|by eexists]. }
  rewrite bind_run, lookupImageName_run.
  destruct (environ w !! imageEnvVar) as [imageName|] eqn:Himage.
  2:{ by apply run_image_unset. }
  rewrite bind_run, managerOptions_run.
  destruct (LeaderElection eo) eqn:Hle.
  2:{ cbn [mret Proc_ret]. rewrite run_steps_run.
      pose proof (run_steps_reached eo w imageName) as H.
      unfold prelude_events, assembled_options in H. rewrite Hle in H.
      by apply H. }
  destruct (resolve w "LEADER_ELECTION_LEASE_DURATION" _) as [lease|] eqn:H1.
  2:{ apply (run_duration_malformed eo w imageName 0
               "LEADER_ELECTION_LEASE_DURATION"); try done.
      - by apply resolve_None in H1.
      - intros; lia. }
  destruct (resolve w "LEADER_ELECTION_RENEW_DEADLINE" _) as [renew|] eqn:H2.
  2:{ apply (run_duration_malformed eo w imageName 1
               "LEADER_ELECTION_RENEW_DEADLINE"); try done.
      - by apply resolve_None in H2.
      - intros [|m] k ? Hk; [|lia]. cbn in Hk. injection Hk as <-.
        intros Hm. apply (resolve_None w _ (15 * Second)) in Hm. congruence. }
  destruct (resolve w "LEADER_ELECTION_RETRY_PERIOD" _) as [retry|] eqn:H3.
  2:{ apply (run_duration_malformed eo w imageName 2
               "LEADER_ELECTION_RETRY_PERIOD"); try done.
      - by apply resolve_None in H3.
      - intros [|[|m]] k ? Hk; [..|lia]; cbn in Hk; injection Hk as <-; intros Hm.
        + apply (resolve_None w _ (15 * Second)) in Hm. congruence.
        + apply (resolve_None w _ (10 * Second)) in Hm. congruence. }
  cbn [mret Proc_ret]. rewrite run_steps_run.
  pose proof (run_steps_reached eo w imageName) as H.
  unfold prelude_events, assembled_options in H. rewrite Hle, H1, H2, H3 in H.
  apply H; try done.
  intros _. apply leader_keys_not_malformed. rewrite H1, H2, H3. eauto.
Qed.

(** The calls of a run that got as far as the steps. *)
Lemma prelude_then_steps_calls eo w t :
  calls (prelude_events eo w ++ t) =
  [controllers_LoadConfig; controllers_ValidateConfig (loaded_config w)] ++ calls t.
Proof. by rewrite calls_app, prelude_events_calls. Qed.

(** A run asks for at most one manager, with the assembled options. *)
Lemma Start_manager_options eo w :
  manager_options (trace_of (Start eo w [])) `prefix_of` [assembled_options eo w].
Proof.
  destruct (Start_shape eo w)
    as [Hl|Hl Hv|Hl Hv Hi|imageName n key Hl Hv Hi Hle Hn Hm Hfirst
       |imageName Hl Hv Hi Hd r];
    unfold trace_of; cbn [snd].
  1-3: apply prefix_nil.
  - leader_cases n Hn; apply prefix_nil.
  - unfold manager_options. rewrite prelude_then_steps_calls. cbn [app omap list_omap].
    cbn [call_manager_options].
    change (omap call_manager_options (calls r.2))
      with (manager_options r.2).
    unfold manager_options.
    etrans; [apply omap_prefix, steps_result_prefix|]. done.
Qed.

(** An aborted prelude made at most the two configuration calls. *)
Lemma short_calls_nothing_built (l : list (@Call Config)) (c : Config) :
  l `prefix_of` [controllers_LoadConfig; controllers_ValidateConfig c] →
  omap call_manager_options l = [] ∧
  omap call_controller l = [] ∧
  omap call_watch l = [].
Proof. by intros [->|[->| ->]]%prefix_two. Qed.

(** X1.  When the variable is set to a non-empty value that parses,
    [lookupEnvDurationOr] returns the parsed duration, whatever the
    fallback is, after one lookup and without logging. *)
Theorem lookupEnvDurationOr_override key o w tr v d :
  environ w !! key = Some v →
  v ≠ "" →
  parse_duration w v = Some d →
  lookupEnvDurationOr key o w tr = (Returned d, tr ++ [EvLookupEnv key]).
Proof.
  intros Hv Hne Hparse. rewrite lookupEnvDurationOr_run.
  unfold resolve. rewrite Hv.
  destruct (String.eqb_spec v ""); [done|]. by rewrite Hparse.
Qed.

(** X2.  [lookupEnvDurationOr] ends the process exactly when the value is
    malformed, and then with status 1; it never panics; a duration it
    returns is the fallback (variable unset or empty) or what the value
    parses to; it makes no collaborator call and consults the one
    variable it was given, once. *)
Theorem lookupEnvDurationOr_outcomes key o w tr :
  let r := lookupEnvDurationOr key o w tr in
  (outcome_of r = Exited 1 ↔ malformed w key) ∧
  (∀ code, outcome_of r = Exited code → code = 1) ∧
  (∀ e, outcome_of r ≠ Panicked e) ∧
  (∀ d, outcome_of r = Returned d →
        (d = o ∧ absent_or_empty w key) ∨
        (∃ v, environ w !! key = Some v ∧ v ≠ "" ∧ parse_duration w v = Some d)) ∧
  calls (trace_of r) = calls tr ∧
  lookups (trace_of r) = lookups tr ++ [key].
Proof.
  cbn zeta. rewrite lookupEnvDurationOr_run.
  destruct (resolve w key o) as [d|] eqn:Hres; unfold outcome_of, trace_of; cbn [fst snd].
  - split; [|split; [done|split; [done|split; [|split]]]].
    + split; [done|]. intros Hm%(resolve_None w key o). congruence.
    + intros d' [= <-]. unfold resolve in Hres. unfold absent_or_empty.
      destruct (environ w !! key) as [v|];
        [|left; simplify_eq; split; [done|by left]].
      destruct (String.eqb_spec v "") as [Hv|Hne].
      * left. injection Hres as <-. split; [done|right; by rewrite Hv].
      * right. by exists v.
    + rewrite calls_app. cbn. by rewrite app_nil_r.
    + by rewrite lookups_app.
  - apply resolve_None in Hres.
    split; [done|split; [by intros ? [= <-]|split; [done|split; [done|split]]]].
    + rewrite calls_app. cbn. by rewrite app_nil_r.
    + by rewrite lookups_app.
Qed.

(** X3.  The options of any manager [Start] asks for are the assembled
    ones.  With leader election on they have the election id
    "argo-events-controller" and three durations, each resolved from its
    own variable against its own default: the lease from
    LEADER_ELECTION_LEASE_DURATION (15s), the renew deadline from
    LEADER_ELECTION_RENEW_DEADLINE (10s), the retry period from
    LEADER_ELECTION_RETRY_PERIOD (5s). *)
Theorem manager_gets_assembled_options eo w opts :
  opts ∈ manager_options (trace_of (Start eo w [])) →
  opts = assembled_options eo w ∧
  (LeaderElection eo = true →
   opt_LeaderElection opts = true ∧
   LeaderElectionID opts = "argo-events-controller" ∧
   is_Some (LeaseDuration opts) ∧
   is_Some (RenewDeadline opts) ∧
   is_Some (RetryPeriod opts) ∧
   LeaseDuration opts = resolve w "LEADER_ELECTION_LEASE_DURATION" (15 * Second) ∧
   RenewDeadline opts = resolve w "LEADER_ELECTION_RENEW_DEADLINE" (10 * Second) ∧
   RetryPeriod opts = resolve w "LEADER_ELECTION_RETRY_PERIOD" (5 * Second)).
Proof.
  intros Hin.
  assert (opts = assembled_options eo w) as ->.
  { pose proof (elem_of_prefix _ _ _ Hin (Start_manager_options eo w)) as H.
    by apply list_elem_of_singleton in H. }
  split; [done|]. intros Hle.
  assert (Forall (fun k => ¬ malformed w k) leader_keys) as Hok.
  { revert Hin.
    destruct (Start_shape eo w)
      as [Hl|Hl Hv|Hl Hv Hi|imageName n key Hl Hv Hi _ Hn Hm Hfirst
         |imageName Hl Hv Hi Hd r];
      unfold trace_of; cbn [snd]; [..|by auto].
    1-3: by intros ?%elem_of_nil.
    leader_cases n Hn; by intros ?%elem_of_nil. }
  apply leader_keys_not_malformed in Hok as (? & ? & ?).
  unfold assembled_options. rewrite Hle. cbn. by rewrite Hle.
Qed.

(** X4.  With leader election on, a malformed value in any of the three
    leader-election variables ends [Start] with status 1 before it asks
    for a manager: no controller is created and no watch registered. *)
Theorem Start_malformed_duration_aborts eo w key :
  LeaderElection eo = true →
  key ∈ leader_keys →
  malformed w key →
  let r := Start eo w [] in
  outcome_of r = Exited 1 ∧
  calls (trace_of r) `prefix_of`
    [controllers_LoadConfig; controllers_ValidateConfig (loaded_config w)] ∧
  manager_options (trace_of r) = [] ∧
  controllers (trace_of r) = [] ∧
  watches (trace_of r) = [].
Proof.
  intros Hle Hkey Hmal. cbn zeta.
  assert (outcome_of (Start eo w []) = Exited 1 ∧
          calls (trace_of (Start eo w [])) `prefix_of`
            [controllers_LoadConfig; controllers_ValidateConfig (loaded_config w)])
    as [Ho Hpre].
  { destruct (Start_shape eo w)
      as [Hl|Hl Hv|Hl Hv Hi|imageName n k Hl Hv Hi _ Hn Hm Hfirst
         |imageName Hl Hv Hi Hd r];
      unfold trace_of, outcome_of; cbn [fst snd].
    - split; [done|]. by apply prefix_cons, prefix_nil.
    - done.
    - done.
    - split; [done|]. by leader_cases n Hn.
    - exfalso. specialize (Hd Hle).
      rewrite Forall_forall in Hd. by apply (Hd key). }
  split; [done|split; [done|]].
  unfold manager_options, controllers, watches.
  by destruct (short_calls_nothing_built _ _ Hpre) as (-> & -> & ->).
Qed.

(** X5.  [Start] returns exactly when the image variable is set, no
    leader-election variable it has to read is malformed, and every
    collaborator call of the bootstrap, up to and including [mgr.Start],
    comes back without error. *)
Theorem Start_returns_iff eo w :
  outcome_of (Start eo w []) = Returned tt ↔
  ∃ imageName,
    environ w !! imageEnvVar = Some imageName ∧
    (LeaderElection eo = true → Forall (fun k => ¬ malformed w k) leader_keys) ∧
    Forall (fun c => call_error w c = None)
           (bootstrap_calls (loaded_config w) imageName (assembled_options eo w)).
Proof.
  destruct (Start_shape eo w)
    as [Hl|Hl Hv|Hl Hv Hi|imageName n k Hl Hv Hi Hle Hn Hm Hfirst
       |imageName Hl Hv Hi Hd r];
    unfold outcome_of; cbn [fst].
  - split; [done|]. intros (i & _ & _ & Hall).
    apply Forall_cons in Hall as [Hok _]. destruct Hl. congruence.
  - split; [done|]. intros (i & _ & _ & Hall).
    apply Forall_cons in Hall as [_ Hall].
    apply Forall_cons in Hall as [Hok _]. destruct Hv. congruence.
  - split; [done|]. intros (i & ? & _). congruence.
  - split; [done|]. intros (i & _ & Hd & _). exfalso.
    specialize (Hd Hle). rewrite Forall_forall in Hd.
    apply (Hd k); [|done]. by eapply list_elem_of_lookup_2.
  - split.
    + intros Hret. exists imageName. split; [done|split; [done|]].
      apply steps_result_returned in Hret as [_ Hall].
      unfold bootstrap_calls.
      apply Forall_cons_2; [exact Hl|]. apply Forall_cons_2; [exact Hv|exact Hall].
    + intros (i & Hi' & _ & Hall). simplify_eq.
      apply steps_result_all_ok.
      unfold bootstrap_calls in Hall.
      by do 2 apply Forall_cons in Hall as [_ Hall].
Qed.

(** ** How runs of the steps end *)

Lemma app_eq_split {A} (l1 l2 pre : list A) e post :
  l1 ++ l2 = pre ++ e :: post →
  (∃ post', l1 = pre ++ e :: post' ∧ post = post' ++ l2) ∨
  (∃ pre', pre = l1 ++ pre' ∧ l2 = pre' ++ e :: post).
Proof.
  intros [(k & -> & Hk)|(k & -> & ->)]%app_eq_inv; [|by eauto].
  destruct k as [|e' k]; cbn in Hk.
  - right. exists []. rewrite !app_nil_r. split; [done|by rewrite Hk].
  - injection Hk as <- ->. left. by exists k.
Qed.

(** A run of steps that exits does so with status 1, right after a fatal
    log entry or after the call whose callee exits by itself. *)
Lemma steps_result_exited w steps code :
  (steps_result w steps).1 = Exited code →
  code = 1 ∧
  ((∃ msg, last (steps_result w steps).2 = Some (EvLog FatalLevel msg)) ∨
   (∃ c, StepCall c Die ∈ steps ∧ last (steps_result w steps).2 = Some (EvCall c))).
Proof.
  induction steps as [|[c h|msg] rest IH]; cbn.
  - done.
  - destruct (call_error w c) as [e|].
    + destruct h; cbn; intros [= <-]; (split; [done|]).
      * left. by eexists.
      * right. exists c. split; [left|done].
    + destruct (steps_result w rest) as [o t]. cbn in *. intros Ho.
      destruct (IH Ho) as [-> H]. split; [done|]. rewrite last_cons.
      destruct H as [[msg H]|(c' & Hin & H)]; rewrite H.
      * left. by eexists.
      * right. exists c'. split; [by right|done].
  - destruct (steps_result w rest) as [o t]. cbn in *. intros Ho.
    destruct (IH Ho) as [-> H]. split; [done|]. rewrite last_cons.
    destruct H as [[msg' H]|(c' & Hin & H)]; rewrite H.
    + left. by eexists.
    + right. exists c'. split; [by right|done].
Qed.

(** A fatal log entry ends a run of steps: it is the reaction to a failed
    call, it is the last event, and the process exits with status 1. *)
Lemma steps_result_fatal_last w steps pre msg post :
  (steps_result w steps).2 = pre ++ EvLog FatalLevel msg :: post →
  post = [] ∧ (steps_result w steps).1 = Exited 1 ∧
  ∃ c, StepCall c (LogFatal msg) ∈ steps ∧ failed w c.
Proof.
  revert pre. induction steps as [|[c h|m] rest IH]; intros pre; cbn.
  - by destruct pre.
  - destruct (call_error w c) as [e|] eqn:Hc.
    + destruct pre as [|e0 pre]; [by destruct h|].
      destruct h; cbn; intros [= <- Heq].
      * destruct pre as [|? [|??]]; simplify_eq/=.
        split; [done|split; [done|]]. exists c. split; [left|by eexists].
      * by destruct pre.
      * by destruct pre.
    + destruct (steps_result w rest) as [o t]. cbn in *.
      destruct pre as [|e0 pre]; [done|]. intros [= <- Heq].
      destruct (IH pre Heq) as (? & ? & c' & ? & ?).
      split; [done|split; [done|]]. exists c'. split; [by right|done].
  - destruct (steps_result w rest) as [o t]. cbn in *.
    destruct pre as [|e0 pre]; [done|]. intros [= <- Heq].
    destruct (IH pre Heq) as (? & ? & c' & ? & ?).
    split; [done|split; [done|]]. exists c'. split; [by right|done].
Qed.

(** A run of steps that panics stopped at a step whose reaction is a
    panic, with that call's error, having only run the steps before it. *)
Lemma steps_result_panicked w steps e :
  (steps_result w steps).1 = Panicked e →
  ∃ pre c post,
    steps = pre ++ StepCall c PanicErr :: post ∧
    call_error w c = Some e ∧
    (steps_result w steps).2 = (step_event <$> pre) ++ [EvCall c].
Proof.
  induction steps as [|[c h|msg] rest IH]; cbn.
  - done.
  - destruct (call_error w c) as [e0|] eqn:Hc.
    + destruct h; cbn; intros [= <-]. by exists [], c, rest.
    + destruct (steps_result w rest) as [o t]. cbn in *. intros Ho.
      destruct (IH Ho) as (pre & c' & post & -> & ? & ->).
      by exists (StepCall c h :: pre), c', post.
  - destruct (steps_result w rest) as [o t]. cbn in *. intros Ho.
    destruct (IH Ho) as (pre & c' & post & -> & ? & ->).
    by exists (StepInfo msg :: pre), c', post.
Qed.

(** X6.  [Start] panics only when the kube client cannot be built: the
    panic carries that constructor's error, and the run consists of the
    prelude and the three calls that obtain the cluster configuration, the
    manager and the client.  Nothing is logged, no probe or scheme is
    added, no controller is created and no watch registered. *)
Theorem Start_panics_only_from_kube_client eo w e :
  outcome_of (Start eo w []) = Panicked e →
  call_error w kubernetes_NewForConfigOrDie = Some e ∧
  trace_of (Start eo w []) =
    prelude_events eo w ++
    [ EvCall ctrl_GetConfigOrDie;
      EvCall (ctrl_NewManager (assembled_options eo w));
      EvCall kubernetes_NewForConfigOrDie ] ∧
  controllers (trace_of (Start eo w [])) = [] ∧
  watches (trace_of (Start eo w [])) = [].
Proof.
  destruct (Start_shape eo w)
    as [Hl|Hl Hv|Hl Hv Hi|imageName n k Hl Hv Hi Hle Hn Hm Hfirst
       |imageName Hl Hv Hi Hd r];
    unfold outcome_of, trace_of; cbn [fst snd]; [done..|].
  intros (pre & c & post & Hsteps & Hc & Htr)%steps_result_panicked.
  fold r in Htr. rewrite Htr. clear Htr.
  unfold bootstrap_steps in Hsteps.
  remember (StepCall c PanicErr) as s eqn:Hs.
  split_list Hsteps; try discriminate Hs.
  injection Hs as <-.
  split; [done|split; [done|]].
  unfold controllers, watches.
  rewrite prelude_then_steps_calls. done.
Qed.

(** X7.  Whenever [Start] exits, the status is 1 and the last thing it
    did was to write a fatal log entry, unless [GetConfigOrDie] ended the
    process itself.  A fatal log entry is always the last event of a run,
    and the run then exits with status 1. *)
Theorem Start_exit_is_fatal eo w :
  let r := Start eo w [] in
  (∀ code,
     outcome_of r = Exited code →
     code = 1 ∧
     ((∃ msg, last (trace_of r) = Some (EvLog FatalLevel msg)) ∨
      last (trace_of r) = Some (EvCall ctrl_GetConfigOrDie))) ∧
  (∀ pre msg post,
     trace_of r = pre ++ EvLog FatalLevel msg :: post →
     post = [] ∧ outcome_of r = Exited 1).
Proof.
  cbn zeta.
  destruct (Start_shape eo w)
    as [Hl|Hl Hv|Hl Hv Hi|imageName n k Hl Hv Hi Hle Hn Hm Hfirst
       |imageName Hl Hv Hi Hd r];
    unfold outcome_of, trace_of; cbn [fst snd].
  1-4: split;
    [ intros code [= <-]; split; [done|left; eexists]
    | intros pre msg post Heq; split; [|done] ].
  1,3,5: reflexivity.
  4: by leader_cases n Hn.
  1-4: unfold fatal_entry, image_missing_entry in Heq.
  1-4: remember (EvLog FatalLevel msg) as ev eqn:Hev.
  4: leader_cases n Hn; cbn in Heq.
  1-6: by split_list Heq.
  split.
  - intros code Ho. destruct (steps_result_exited _ _ _ Ho) as [-> Hlast].
    split; [done|]. rewrite last_app. fold r in Hlast.
    destruct Hlast as [[msg ->]|(c & Hin & ->)]; [left; by eexists|right].
    unfold bootstrap_steps in Hin.
    repeat (apply elem_of_cons in Hin as [Heq|Hin];
            [first [discriminate Heq|by injection Heq as ->]|]).
    by apply elem_of_nil in Hin.
  - intros pre msg post Heq.
    apply app_eq_split in Heq as [(post' & Hpre & _)|(pre' & _ & Hsteps)].
    + exfalso. unfold prelude_events in Hpre.
      remember (EvLog FatalLevel msg) as ev eqn:Hev.
      destruct (LeaderElection eo); cbn in Hpre; by split_list Hpre.
    + by destruct (steps_result_fatal_last _ _ _ _ _ Hsteps) as (? & ? & _).
Qed.

(** ** Order within a run *)

(** A call that is followed by another call came back without error. *)
Lemma Start_earlier_calls_ok eo w pre c post c' :
  trace_of (Start eo w []) = pre ++ EvCall c :: post →
  c' ∈ calls pre →
  call_error w c' = None.
Proof.
  intros Htr Hin.
  destruct (call_error w c') as [err|] eqn:Herr; [exfalso|done].
  apply list_elem_of_omap in Hin as ([|l msg|c0] & He & [=]); subst c0.
  apply list_elem_of_split in He as (p1 & p2 & ->).
  rewrite <- app_assoc in Htr. cbn in Htr.
  destruct (Start_halts eo w _ _ _ Htr) as (Hcalls & _); [by eexists|].
  rewrite calls_app in Hcalls. by apply app_eq_nil in Hcalls as [_ ?].
Qed.

Lemma bootstrap_calls_last (config : Config) imageName opts :
  last (bootstrap_calls config imageName opts) = Some mgr_Start.
Proof. reflexivity. Qed.

(** A run that called [mgr.Start] made every call of the bootstrap. *)
Lemma Start_reached_manager_start eo w :
  mgr_Start ∈ calls (trace_of (Start eo w [])) →
  ∃ imageName,
    calls (trace_of (Start eo w [])) =
    bootstrap_calls (loaded_config w) imageName (assembled_options eo w).
Proof.
  intros Hin.
  destruct (Start_calls eo w) as (imageName & lease & renew & retry & H).
  cbn zeta in H. destruct H as ([k Hk] & _).
  assert (k = []) as ->.
  { pose proof (bootstrap_calls_last (loaded_config w) imageName
                  (options_with eo lease renew retry)) as Hlast.
    pose proof (bootstrap_calls_NoDup (loaded_config w) imageName
                  (options_with eo lease renew retry)) as Hnd.
    rewrite Hk in Hlast, Hnd. rewrite last_app in Hlast.
    destruct (last k) as [y|] eqn:Hy; [|by apply last_None].
    injection Hlast as ->. apply last_Some_elem_of in Hy.
    apply NoDup_app in Hnd as (_ & Hdisj & _). by destruct (Hdisj _ Hin). }
  rewrite app_nil_r in Hk. exists imageName.
  assert (ctrl_NewManager (options_with eo lease renew retry)
          ∈ calls (trace_of (Start eo w []))) as Hopt.
  { rewrite <- Hk. unfold bootstrap_calls, bootstrap_steps.
    cbn [omap list_omap step_call].
    do 3 apply list_elem_of_further. apply list_elem_of_here. }
  assert (options_with eo lease renew retry ∈
          manager_options (trace_of (Start eo w []))) as Hm.
  { apply list_elem_of_omap. by eexists. }
  pose proof (elem_of_prefix _ _ _ Hm (Start_manager_options eo w)) as Heq.
  apply list_elem_of_singleton in Heq. by rewrite <- Heq, Hk.
Qed.

(** X8.  A watch is only ever registered on a controller that the same
    run created earlier, and whose creation came back without error. *)
Theorem watch_only_on_built_controller eo w pre c src h p post :
  trace_of (Start eo w []) = pre ++ EvCall (Watch c src h p) :: post →
  ∃ reconciler,
    controller_New c reconciler ∈ calls pre ∧
    call_error w (controller_New c reconciler) = None.
Proof.
  intros Htr.
  assert (∃ reconciler, controller_New c reconciler ∈ calls pre) as [rec Hin].
  { destruct (Start_calls eo w) as (imageName & lease & renew & retry & H).
    cbn zeta in H. destruct H as ([k Hk] & _).
    rewrite Htr, calls_app in Hk.
    change (calls (EvCall (Watch c src h p) :: post))
      with (Watch c src h p :: calls post) in Hk.
    rewrite <- app_assoc, <- app_comm_cons in Hk.
    remember (calls pre) as cp eqn:Hcp.
    remember (Watch c src h p) as e eqn:He.
    remember (calls post ++ k) as rest eqn:Hrest.
    clear Hcp Hrest Htr.
    unfold bootstrap_calls, bootstrap_steps in Hk.
    cbn [omap list_omap step_call] in Hk.
    split_list Hk; try discriminate He.
    all: injection He as <- _ _ _.
    all: eexists.
    all: by repeat first [apply list_elem_of_here|apply list_elem_of_further]. }
  exists rec. split; [done|].
  by eapply Start_earlier_calls_ok.
Qed.

(** X9.  [mgr.Start] is called only after the whole wiring is in place:
    a run that calls it has created the three controllers, in the order
    EventBus, EventSource, Sensor, has registered all nine watches, and
    every call before it came back without error. *)
Theorem manager_started_after_full_wiring eo w :
  mgr_Start ∈ calls (trace_of (Start eo w [])) →
  controllers (trace_of (Start eo w [])) = [eventbus; eventsource; sensor] ∧
  watches (trace_of (Start eo w [])) = spec_wiring (managed_cache eo) ∧
  length (calls (trace_of (Start eo w []))) = 23%nat ∧
  (∀ c, c ∈ calls (trace_of (Start eo w [])) → c ≠ mgr_Start →
        call_error w c = None).
Proof.
  intros Hin. destruct (Start_reached_manager_start eo w Hin) as [imageName Hcalls].
  unfold controllers, watches. rewrite Hcalls.
  split; [done|split; [|split; [done|]]].
  { unfold assembled_options. destruct (LeaderElection eo);
      apply bootstrap_calls_watches. }
  intros c Hc Hne.
  destruct (call_error w c) as [err|] eqn:Herr; [exfalso|done].
  rewrite <- Hcalls in Hc.
  apply list_elem_of_omap in Hc as ([|l msg|c0] & He & [=]); subst c0.
  apply list_elem_of_split in He as (p1 & p2 & Htr).
  destruct (Start_halts eo w _ _ _ Htr) as (Hpost & _); [by eexists|].
  pose proof (bootstrap_calls_last (loaded_config w) imageName
                (assembled_options eo w)) as Hlast.
  rewrite <- Hcalls, Htr, calls_app in Hlast.
  change (calls (EvCall c :: p2)) with (c :: calls p2) in Hlast.
  rewrite Hpost, last_snoc in Hlast. congruence.
Qed.

(** ** The options and the environment *)

Lemma bindAddress_inj p q : bindAddress p = bindAddress q → p = q.
Proof. unfold bindAddress. intros [= H]. by apply (inj pretty). Qed.

(** X10.  When [Namespaced] is false, [ManagedNamespace] is not used:
    two option sets that agree on everything else give the same run. *)
Theorem ManagedNamespace_unused_unless_namespaced eo1 eo2 w tr :
  Namespaced eo1 = false →
  Namespaced eo2 = false →
  LeaderElection eo1 = LeaderElection eo2 →
  MetricsPort eo1 = MetricsPort eo2 →
  HealthPort eo1 = HealthPort eo2 →
  Start eo1 w tr = Start eo2 w tr.
Proof.
  intros Hn1 Hn2 Hle Hm Hh.
  assert (∀ t, managerOptions eo1 w t = managerOptions eo2 w t) as Hopts.
  { intros t. rewrite !managerOptions_run. unfold options_with.
    by rewrite Hn1, Hn2, Hle, Hm, Hh. }
  unfold Start. rewrite !bind_run.
  destruct (loadGlobalConfig w tr) as [[config|c|e] t1]; [|done..].
  rewrite !bind_run.
  destruct (lookupImageName w t1) as [[imageName|c|e] t2]; [|done..].
  by rewrite !bind_run, Hopts.
Qed.

(** X11.  The manager is asked to serve metrics on ":<MetricsPort>" and
    the probes on ":<HealthPort>", in decimal; the two addresses coincide
    exactly when the two ports do, which [Start] does not prevent. *)
Theorem bind_addresses_follow_ports eo w opts :
  opts ∈ manager_options (trace_of (Start eo w [])) →
  Metrics_BindAddress opts = ":" +:+ pretty (MetricsPort eo) ∧
  HealthProbeBindAddress opts = ":" +:+ pretty (HealthPort eo) ∧
  (Metrics_BindAddress opts = HealthProbeBindAddress opts ↔
   MetricsPort eo = HealthPort eo).
Proof.
  intros Hin.
  pose proof (elem_of_prefix _ _ _ Hin (Start_manager_options eo w)) as H.
  apply list_elem_of_singleton in H as ->.
  assert (Metrics_BindAddress (assembled_options eo w) = bindAddress (MetricsPort eo) ∧
          HealthProbeBindAddress (assembled_options eo w) = bindAddress (HealthPort eo))
    as [-> ->].
  { unfold assembled_options. by destruct (LeaderElection eo). }
  split; [done|split; [done|]]. split.
  - apply bindAddress_inj.
  - by intros ->.
Qed.

(** X12.  The fatal entry about the missing image variable is logged
    exactly when the configuration loaded and validated and the variable
    is unset.  A variable that is set, even to the empty string, never
    leads to it. *)
Theorem image_missing_logged_iff eo w :
  image_missing_entry ∈ trace_of (Start eo w []) ↔
  call_error w controllers_LoadConfig = None ∧
  call_error w (controllers_ValidateConfig (loaded_config w)) = None ∧
  environ w !! imageEnvVar = None.
Proof.
  destruct (Start_shape eo w)
    as [Hl|Hl Hv|Hl Hv Hi|imageName n k Hl Hv Hi Hle Hn Hm Hfirst
       |imageName Hl Hv Hi Hd r];
    unfold trace_of; cbn [snd].
  - split.
    + unfold image_missing_entry, fatal_entry. intros Hin.
      repeat (apply elem_of_cons in Hin as [Heq|Hin]; [discriminate Heq|]).
      by apply elem_of_nil in Hin.
    + intros (Hok & _). destruct Hl. congruence.
  - split.
    + unfold image_missing_entry, fatal_entry. intros Hin.
      repeat (apply elem_of_cons in Hin as [Heq|Hin]; [discriminate Heq|]).
      by apply elem_of_nil in Hin.
    + intros (_ & Hok & _). destruct Hv. congruence.
  - split; [done|]. intros _.
    do 3 apply list_elem_of_further. apply list_elem_of_here.
  - split; [|intros (_ & _ & ?); congruence].
    unfold image_missing_entry, fatal_entry. intros Hin.
    leader_cases n Hn; cbn in Hin.
    all: repeat (apply elem_of_cons in Hin as [Heq|Hin]; [discriminate Heq|]).
    all: by apply elem_of_nil in Hin.
  - split; [|intros (_ & _ & ?); congruence].
    unfold image_missing_entry, fatal_entry.
    intros [Hin|Hin]%elem_of_app; exfalso.
    + unfold prelude_events in Hin. destruct (LeaderElection eo); cbn in Hin.
      all: repeat (apply elem_of_cons in Hin as [Heq|Hin]; [discriminate Heq|]).
      all: by apply elem_of_nil in Hin.
    + apply list_elem_of_split in Hin as (pre & post & Hsplit).
      apply steps_result_fatal_last in Hsplit as (_ & _ & c & Hc & _).
      unfold bootstrap_steps in Hc.
      repeat (apply elem_of_cons in Hc as [Heq|Hc]; [discriminate Heq|]).
      by apply elem_of_nil in Hc.
Qed.

(** X13.  The leader-election variables are consulted only with leader
    election on and after the image variable was found set, in the order
    lease duration, renew deadline, retry period; a malformed one is the
    last variable the run consults. *)
Theorem leader_variables_read_in_order eo w :
  let tr := trace_of (Start eo w []) in
  lookups tr `prefix_of` imageEnvVar :: leader_keys ∧
  (∀ k, k ∈ leader_keys → k ∈ lookups tr →
        LeaderElection eo = true ∧ is_Some (environ w !! imageEnvVar)) ∧
  (∀ pre k post,
     lookups tr = pre ++ k :: post →
     k ∈ leader_keys → malformed w k → post = []).
Proof.
  cbn zeta.
  destruct (Start_shape eo w)
    as [Hl|Hl Hv|Hl Hv Hi|imageName n key Hl Hv Hi Hle Hn Hm Hfirst
       |imageName Hl Hv Hi Hd r];
    unfold trace_of; cbn [snd].
  - split; [apply prefix_nil|split].
    + by intros k _ ?%elem_of_nil.
    + intros pre k post Heq. cbn in Heq. by split_list Heq.
  - split; [apply prefix_nil|split].
    + by intros k _ ?%elem_of_nil.
    + intros pre k post Heq. cbn in Heq. by split_list Heq.
  - split; [by apply prefix_cons, prefix_nil|split].
    + intros k Hk Hin. cbn in Hin. apply list_elem_of_singleton in Hin as ->.
      by destruct imageEnvVar_not_leader_key.
    + intros pre k post Heq Hk. cbn in Heq. split_list Heq.
      by destruct imageEnvVar_not_leader_key.
  - split; [|split].
    + leader_cases n Hn; cbn; apply prefix_cons.
      * by apply prefix_cons, prefix_nil.
      * by do 2 apply prefix_cons; apply prefix_nil.
      * done.
    + intros k _ _. split; [done|by eexists].
    + intros pre k post Heq Hk Hmal.
      leader_cases n Hn; cbn in Heq; split_list Heq; try done.
      all: try by destruct imageEnvVar_not_leader_key.
      * by destruct (Hfirst 0%nat _ ltac:(lia) eq_refl).
      * by destruct (Hfirst 0%nat _ ltac:(lia) eq_refl).
      * by destruct (Hfirst 1%nat _ ltac:(lia) eq_refl).
  - rewrite lookups_app, prelude_events_lookups.
    subst r. rewrite steps_result_lookups, app_nil_r.
    split; [|split].
    + destruct (LeaderElection eo); [done|]. by apply prefix_cons, prefix_nil.
    + intros k Hk Hin. split; [|by eexists].
      destruct (LeaderElection eo); [done|].
      apply list_elem_of_singleton in Hin as ->.
      by destruct imageEnvVar_not_leader_key.
    + intros pre k post Heq Hk Hmal. exfalso.
      destruct (LeaderElection eo).
      * specialize (Hd eq_refl). rewrite Forall_forall in Hd. by apply (Hd k).
      * split_list Heq. by destruct imageEnvVar_not_leader_key.
Qed.

End Further.

(** ** Further runs on the example worlds *)

Lemma lookupEnvDurationOr_override_witness :
  lookupEnvDurationOr "LEADER_ELECTION_LEASE_DURATION" (15 * Second)
      override_world [] =
    (Returned 30000000000, [] ++ [EvLookupEnv "LEADER_ELECTION_LEASE_DURATION"]).
Proof.
  apply (lookupEnvDurationOr_override
           "LEADER_ELECTION_LEASE_DURATION" (15 * Second) override_world [] "30s").
  - vm_compute. reflexivity.
  - discriminate.
  - vm_compute. reflexivity.
Defined.

Lemma manager_gets_assembled_options_witness :
  let opts := assembled_options leader_opts override_world in
  LeaseDuration opts = Some 30000000000 ∧
  RenewDeadline opts = Some 10000000000 ∧
  RetryPeriod opts = Some 2000000000 ∧
  LeaderElectionID opts = "argo-events-controller".
Proof.
  intros opts.
  assert (opts ∈ manager_options (trace_of (Start leader_opts override_world [])))
    as Hin.
  { vm_compute. apply list_elem_of_here. }
  destruct (manager_gets_assembled_options leader_opts override_world opts Hin)
    as (_ & Hle).
  destruct (Hle eq_refl) as (_ & Hid & _ & _ & _ & -> & -> & ->).
  split; [|split; [|split]]; [vm_compute; reflexivity..|exact Hid].
Defined.

Lemma Start_malformed_duration_aborts_witness :
  outcome_of (Start leader_opts malformed_retry_world []) = Exited 1 ∧
  manager_options (trace_of (Start leader_opts malformed_retry_world [])) = [] ∧
  lookups (trace_of (Start leader_opts malformed_retry_world [])) =
    imageEnvVar :: leader_keys.
Proof.
  destruct (Start_malformed_duration_aborts
              leader_opts malformed_retry_world "LEADER_ELECTION_RETRY_PERIOD")
    as (Ho & _ & Hm & _).
  - reflexivity.
  - do 2 apply list_elem_of_further. apply list_elem_of_here.
  - exists "5 seconds". split; [vm_compute; reflexivity|].
    split; [discriminate|vm_compute; reflexivity].
  - split; [exact Ho|split; [exact Hm|]]. vm_compute. reflexivity.
Defined.

Lemma Start_returns_iff_witness :
  outcome_of (Start plain_opts plain_world []) = Returned tt.
Proof.
  apply (Start_returns_iff plain_opts plain_world).
  exists "quay.io/argoproj/argo-events:latest".
  split; [vm_compute; reflexivity|]. split; [discriminate|].
  apply Forall_forall. reflexivity.
Defined.

Lemma Start_panics_only_from_kube_client_witness :
  outcome_of (Start plain_opts no_kube_client_world []) =
    Panicked "invalid configuration" ∧
  calls (trace_of (Start plain_opts no_kube_client_world [])) =
    [ controllers_LoadConfig; controllers_ValidateConfig ();
      ctrl_GetConfigOrDie;
      ctrl_NewManager (assembled_options plain_opts no_kube_client_world);
      kubernetes_NewForConfigOrDie ].
Proof.
  assert (outcome_of (Start plain_opts no_kube_client_world []) =
          Panicked "invalid configuration") as Ho.
  { vm_compute. reflexivity. }
  destruct (Start_panics_only_from_kube_client
              plain_opts no_kube_client_world "invalid configuration" Ho)
    as (_ & Htr & _).
  split; [exact Ho|]. rewrite Htr. reflexivity.
Defined.

Lemma watch_only_on_built_controller_witness :
  ∃ reconciler,
    controller_New sensor reconciler
      ∈ calls (take 22 (trace_of (Start plain_opts plain_world []))) ∧
    call_error plain_world (controller_New sensor reconciler) = None.
Proof.
  apply (watch_only_on_built_controller plain_opts plain_world
           (take 22 (trace_of (Start plain_opts plain_world [])))
           sensor
           (source_Kind (managed_cache plain_opts) Deployment)
           (EnqueueRequestForOwner Sensor [OnlyControllerOwner])
           GenerationChangedPredicate
           (drop 23 (trace_of (Start plain_opts plain_world [])))).
  vm_compute. reflexivity.
Defined.

Lemma manager_started_after_full_wiring_witness :
  outcome_of (Start plain_opts manager_stops_world []) = Exited 1 ∧
  controllers (trace_of (Start plain_opts manager_stops_world [])) =
    [eventbus; eventsource; sensor] ∧
  watches (trace_of (Start plain_opts manager_stops_world [])) =
    spec_wiring (managed_cache plain_opts).
Proof.
  destruct (manager_started_after_full_wiring plain_opts manager_stops_world)
    as (Hc & Hw & _).
  { vm_compute. do 22 apply list_elem_of_further. apply list_elem_of_here. }
  split; [vm_compute; reflexivity|]. split; [exact Hc|exact Hw].
Defined.

Lemma ManagedNamespace_unused_unless_namespaced_witness :
  Start plain_opts plain_world [] =
  Start {| Namespaced := false; ManagedNamespace := "argo-events";
           LeaderElection := false; MetricsPort := 7777; HealthPort := 8081 |}
        plain_world [].
Proof.
  apply ManagedNamespace_unused_unless_namespaced; reflexivity.
Defined.

Lemma bind_addresses_follow_ports_witness :
  let opts := assembled_options plain_opts plain_world in
  Metrics_BindAddress opts = ":7777" ∧ HealthProbeBindAddress opts = ":8081".
Proof.
  intros opts.
  assert (opts ∈ manager_options (trace_of (Start plain_opts plain_world [])))
    as Hin.
  { vm_compute. apply list_elem_of_here. }
  destruct (bind_addresses_follow_ports plain_opts plain_world opts Hin)
    as (-> & -> & _).
  split; vm_compute; reflexivity.
Defined.

Lemma image_missing_logged_iff_witness :
  (image_missing_entry ∉ trace_of (Start plain_opts empty_image_world [])) ∧
  (image_missing_entry ∈ trace_of (Start plain_opts no_image_world [])).
Proof.
  split.
  - intros (_ & _ & H)%image_missing_logged_iff. vm_compute in H. discriminate.
  - apply image_missing_logged_iff. repeat split.
Defined.

(** ** Defaults of the leader-election durations *)

Section Defaults.

Context {Config : Type}.
Implicit Types (w : @World Config) (tr : list (@Event Config)).

Lemma resolve_absent_or_empty w key o :
  absent_or_empty w key → resolve w key o = Some o.
Proof. intros [H|H]; unfold resolve; by rewrite H. Qed.

(** C5.  When the variable is unset or empty, [lookupEnvDurationOr]
    returns exactly the fallback it was given.  With leader election on,
    each duration of the options [Start] assembles, and of the options any
    manager is asked for with, is the default of its own variable whenever
    that variable is unset or empty, whatever the other two hold: 15s for
    LEADER_ELECTION_LEASE_DURATION, 10s for LEADER_ELECTION_RENEW_DEADLINE,
    5s for LEADER_ELECTION_RETRY_PERIOD; and when all three are unset or
    empty the options are assembled, with 15s, 10s and 5s. *)
Theorem lookupEnvDurationOr_fallback w :
  (∀ key o tr,
     absent_or_empty w key →
     lookupEnvDurationOr key o w tr = (Returned o, tr ++ [EvLookupEnv key])) ∧
  (∀ eo tr opts tr',
     LeaderElection eo = true →
     managerOptions eo w tr = (Returned opts, tr') →
     own_defaults w opts) ∧
  (∀ eo opts,
     LeaderElection eo = true →
     opts ∈ manager_options (trace_of (Start eo w [])) →
     own_defaults w opts) ∧
  (∀ eo tr,
     LeaderElection eo = true →
     Forall (absent_or_empty w) leader_keys →
     ∃ opts tr',
       managerOptions eo w tr = (Returned opts, tr') ∧
       LeaseDuration opts = Some 15000000000 ∧
       RenewDeadline opts = Some 10000000000 ∧
       RetryPeriod opts = Some 5000000000).
Proof.
  split; [|split; [|split]].
  - intros key o tr H. by rewrite lookupEnvDurationOr_run, resolve_absent_or_empty.
  - intros eo tr opts tr' Hle. rewrite managerOptions_run, Hle.
    destruct (resolve w "LEADER_ELECTION_LEASE_DURATION" _) as [lease|] eqn:H1;
      [|done].
    destruct (resolve w "LEADER_ELECTION_RENEW_DEADLINE" _) as [renew|] eqn:H2;
      [|done].
    destruct (resolve w "LEADER_ELECTION_RETRY_PERIOD" _) as [retry|] eqn:H3;
      [|done].
    intros [= <- _]. unfold own_defaults. cbn.
    split; [|split]; intros Habs.
    + by rewrite <- H1, (resolve_absent_or_empty _ _ _ Habs).
    + by rewrite <- H2, (resolve_absent_or_empty _ _ _ Habs).
    + by rewrite <- H3, (resolve_absent_or_empty _ _ _ Habs).
  - intros eo opts Hle Hin.
    pose proof (elem_of_prefix _ _ _ Hin (Start_manager_options eo w)) as H.
    apply list_elem_of_singleton in H as ->.
    unfold own_defaults, assembled_options. rewrite Hle. cbn.
    split; [|split]; intros Habs; by rewrite (resolve_absent_or_empty _ _ _ Habs).
  - intros eo tr Hle Hkeys.
    apply Forall_cons in Hkeys as [H1 Hkeys].
    apply Forall_cons in Hkeys as [H2 Hkeys].
    apply Forall_cons in Hkeys as [H3 _].
    rewrite managerOptions_run, Hle, !resolve_absent_or_empty by done.
    eauto 10.
Qed.

End Defaults.

Lemma lookupEnvDurationOr_fallback_witness :
  lookupEnvDurationOr "LEADER_ELECTION_RENEW_DEADLINE" (10 * Second)
      empty_renew_world [] =
    (Returned (10 * Second), [] ++ [EvLookupEnv "LEADER_ELECTION_RENEW_DEADLINE"]) ∧
  (let opts := assembled_options leader_opts override_world in
   LeaseDuration opts = Some 30000000000 ∧
   RenewDeadline opts = Some 10000000000 ∧
   RetryPeriod opts = Some 2000000000) ∧
  ∃ opts tr',
    managerOptions leader_opts empty_renew_world [] = (Returned opts, tr') ∧
    LeaseDuration opts = Some 15000000000 ∧
    RenewDeadline opts = Some 10000000000 ∧
    RetryPeriod opts = Some 5000000000.
Proof.
  destruct (lookupEnvDurationOr_fallback empty_renew_world) as (Hone & _ & _ & Hall).
  destruct (lookupEnvDurationOr_fallback override_world) as (_ & _ & Hrun & _).
  split; [|split].
  - apply Hone. right. vm_compute. reflexivity.
  - intros opts.
    assert (opts ∈ manager_options (trace_of (Start leader_opts override_world [])))
      as Hin.
    { vm_compute. apply list_elem_of_here. }
    destruct (Hrun leader_opts opts eq_refl Hin) as (_ & Hrenew & _).
    split; [vm_compute; reflexivity|]. split; [|vm_compute; reflexivity].
    apply Hrenew. left. vm_compute. reflexivity.
  - apply Hall.
    + reflexivity.
    + apply Forall_cons_2; [left; vm_compute; reflexivity|].
      apply Forall_cons_2; [right; vm_compute; reflexivity|].
      apply Forall_cons_2; [left; vm_compute; reflexivity|].
      apply Forall_nil_2.
Defined.
